(** * periodictable: chemical formulas, their flattening, the formula
    parser, mass evaluation and the import-time registration of the
    element property groups.

    Only [periodictable/__init__.py] is available.  The formula model
    ([formulas.py]), the element catalog ([core.py], [mass.py]) and the
    scattering evaluators ([nsf.py], [xsf.py]) are modelled from the
    specification; those definitions say so in their doc comments. *)

From Stdlib Require Import QArith Qcanon Ascii String.
From stdpp Require Import base gmap list strings.

Set Warnings "-register-all".
Open Scope list_scope.

(* ------------------------------------------------------------------ *)
(** ** Atom references *)

(** Modelled from the spec: an atom reference (core.py is missing) is a bare
    element, by atomic number, or a specific isotope, by atomic number and
    mass number. *)
Inductive atom : Type :=
| Elem (z : nat)
| Iso (z : nat) (a : N).

Global Instance atom_eq_dec : EqDecision atom.
Proof. solve_decision. Defined.

Global Instance atom_countable : Countable atom.
Proof.
  refine (inj_countable'
            (fun x => match x with Elem z => inl z | Iso z a => inr (z, a) end)
            (fun y => match y with inl z => Elem z | inr (z, a) => Iso z a end) _).
  by intros [].
Defined.

(* ------------------------------------------------------------------ *)
(** ** Counts *)

(** Modelled from the spec: a count is a non-negative integer or decimal
    literal; [Dec m e] stands for [m / 10^e]. *)
Record decimal : Type := Dec { mant : N; dexp : nat }.

Definition dec_one : decimal := Dec 1 0.

Definition dec_Q (d : decimal) : Q :=
  inject_Z (Z.of_N (mant d)) / inject_Z (10 ^ Z.of_nat (dexp d)).

Definition dec_Qc (d : decimal) : Qc := Q2Qc (dec_Q d).

(** Product of two decimal counts (a decimal again). *)
Definition dec_mul (k c : decimal) : decimal :=
  Dec (mant k * mant c) (dexp k + dexp c).

(* ------------------------------------------------------------------ *)
(** ** Formulas *)

(** Modelled from the spec: a fragment is a pair (count, target); the
    target is an atom reference or a nested formula (its fragment list). *)
Inductive target : Type :=
| TAtom (a : atom)
| TSub (fs : list (decimal * target)).

Abbreviation fragment := (decimal * target)%type.

(** Modelled from the spec: a Formula is an ordered fragment sequence with an
    optional declared density (g/cm^3) and an optional name. *)
Record Formula : Type := MkFormula {
  structure : list fragment;
  fdensity : option Q;
  fname : option string
}.

Definition empty_formula : Formula := MkFormula [] None None.

(** Modelled from the spec: [add(A, B)] concatenates the fragment sequences;
    density and name come from whichever operand defines them, the left one
    first. *)
Definition add (A B : Formula) : Formula :=
  MkFormula (structure A ++ structure B)
            (match fdensity A with Some d => Some d | None => fdensity B end)
            (match fname A with Some n => Some n | None => fname B end).

(** Modelled from the spec: [scale(k, A)] is a Formula with the single
    fragment [(k, A)] ... *)
Definition scale (k : decimal) (A : Formula) : Formula :=
  MkFormula [(k, TSub (structure A))] (fdensity A) (fname A).

(** ... or, the alternative the spec allows, [A] with every top-level count
    multiplied by [k]. *)
Definition scale_top (k : decimal) (A : Formula) : Formula :=
  MkFormula (map (fun '(c, t) => (dec_mul k c, t)) (structure A))
            (fdensity A) (fname A).

(* ------------------------------------------------------------------ *)
(** ** Flattened composition *)

(** A flattened composition maps atom references to total counts. *)
Abbreviation composition := (gmap atom Qc).

(** Key-wise sum of two compositions. *)
Definition merge (m1 m2 : composition) : composition :=
  union_with (fun x y => Some (x + y)%Qc) m1 m2.

(** Every count multiplied by [k]. *)
Definition scale_comp (k : Qc) (m : composition) : composition :=
  fmap (Qcmult k) m.

(** Modelled from the spec: post-order traversal; an atom fragment with count
    [c] contributes [c] to its atom; a nested formula with count [c] is
    flattened and every resulting count multiplied by [c]; the
    contributions are merged. *)
Fixpoint flatten_target (t : target) : composition :=
  match t with
  | TAtom a => {[a := 1%Qc]}
  | TSub fs =>
      (fix go (fs : list fragment) : composition :=
         match fs with
         | [] => ∅
         | (c, t') :: fs' => merge (scale_comp (dec_Qc c) (flatten_target t')) (go fs')
         end) fs
  end.

Definition flatten_frags (fs : list fragment) : composition := flatten_target (TSub fs).

Definition flatten (F : Formula) : composition := flatten_frags (structure F).

(* ------------------------------------------------------------------ *)
(** ** The element catalog *)

(** Modelled from the spec: the catalog of core.py and mass.py (missing) lists
    each element with its atomic number, symbol, natural mass and isotopes
    (mass number and isotope mass).  An excerpt with the elements used in
    the examples and those the module documentation names: the neutron [n]
    (number 0), H, B, C, N, O, Si, Ca, Fe, Ni, Cu, Cd and Rn; masses in
    g/mol.  Deuterium and tritium are the isotopes 2 and 3 of H. *)
Record element : Type := MkElement {
  number : nat;
  symbol : string;
  el_mass : option Q;
  isotopes : list (N * option Q)
}.

Definition catalog : list element := [
  MkElement 0 "n" (Some (100866491597 # 100000000000))
    [(1%N, Some (100866491597 # 100000000000))];
  MkElement 1 "H" (Some (100794 # 100000))
    [(1%N, Some (10078250321 # 10000000000)); (2%N, Some (2014101778 # 1000000000));
     (3%N, Some (30160492675 # 10000000000))];
  MkElement 5 "B" (Some (10811 # 1000))
    [(10%N, Some (10012937 # 1000000)); (11%N, Some (110093054 # 10000000))];
  MkElement 6 "C" (Some (120107 # 10000))
    [(12%N, Some (12 # 1)); (13%N, Some (130033548378 # 10000000000));
     (14%N, Some (14003241988 # 1000000000))];
  MkElement 7 "N" (Some (140067 # 10000))
    [(14%N, Some (140030740048 # 10000000000)); (15%N, Some (150001088982 # 10000000000))];
  MkElement 8 "O" (Some (159994 # 10000))
    [(16%N, Some (159949146196 # 10000000000)); (17%N, Some (1699913170 # 100000000));
     (18%N, Some (179991610 # 10000000))];
  MkElement 14 "Si" (Some (280855 # 10000))
    [(28%N, Some (279769265325 # 10000000000)); (29%N, Some (28976494700 # 1000000000));
     (30%N, Some (2997377017 # 100000000))];
  MkElement 20 "Ca" (Some (40078 # 1000))
    [(40%N, Some (3996259098 # 100000000)); (42%N, Some (4195861801 # 100000000));
     (43%N, Some (429587666 # 10000000)); (44%N, Some (439554818 # 10000000));
     (46%N, Some (459536926 # 10000000)); (48%N, Some (47952534 # 1000000))];
  MkElement 26 "Fe" (Some (55845 # 1000))
    [(54%N, Some (539396105 # 10000000)); (56%N, Some (559349375 # 10000000));
     (57%N, Some (56935394 # 1000000)); (58%N, Some (579332756 # 10000000))];
  MkElement 28 "Ni" (Some (586934 # 10000))
    [(58%N, Some (579353429 # 10000000)); (60%N, Some (599307864 # 10000000));
     (61%N, Some (60931056 # 1000000)); (62%N, Some (619283451 # 10000000));
     (64%N, Some (63927966 # 1000000))];
  MkElement 29 "Cu" (Some (63546 # 1000))
    [(63%N, Some (629295975 # 10000000)); (65%N, Some (649277895 # 10000000))];
  MkElement 48 "Cd" (Some (112411 # 1000))
    [(106%N, Some (105906459 # 1000000)); (108%N, Some (107904184 # 1000000));
     (110%N, Some (1099030021 # 10000000)); (111%N, Some (1109041781 # 10000000));
     (112%N, Some (1119027578 # 10000000)); (113%N, Some (1129044017 # 10000000));
     (114%N, Some (1139033585 # 10000000)); (116%N, Some (115904756 # 1000000))];
  MkElement 86 "Rn" (Some (2220176 # 10000))
    [(211%N, Some (210990601 # 1000000)); (220%N, Some (22001139 # 100000));
     (222%N, Some (2220175777 # 10000000))]
].

(** Lookup of an element by symbol, and by atomic number. *)
Definition find_symbol (s : list ascii) : option element :=
  find (fun el => bool_decide (list_ascii_of_string (symbol el) = s)) catalog.

Definition find_number (z : nat) : option element :=
  find (fun el => Nat.eqb (number el) z) catalog.

(** Is [a] the mass number of an isotope of [el]? *)
Definition isotope_valid (el : element) (a : N) : bool :=
  existsb (fun '(m, _) => N.eqb m a) (isotopes el).

(** The mass datum of an atom reference ([None] when undefined). *)
Definition catalog_mass (x : atom) : option Q :=
  match x with
  | Elem z => match find_number z with Some el => el_mass el | None => None end
  | Iso z a =>
      match find_number z with
      | Some el =>
          match find (fun '(m, _) => N.eqb m a) (isotopes el) with
          | Some (_, w) => w
          | None => None
          end
      | None => None
      end
  end.

(* ------------------------------------------------------------------ *)
(** ** The formula parser *)

(** Modelled from the spec (formulas.py is missing): the grammar of section
    4.1 read together with the docstring of [formula]:
    - atom    := symbol, optionally followed by [[N]] (an isotope);
    - count   := digits, optionally followed by [.] and digits;
    - term    := atom count? | '(' formula ')' count?
    - run     := count? term+   (a leading count scales the whole run);
    - formula := run (sep run)*  where sep is a run of '+' and ' ';
    - input   := formula?  followed by the end of the input. *)
Inductive parse_error : Type :=
| UnknownSymbol (sym : list ascii)
| InvalidIsotope (sym : list ascii)
| Unbalanced
| BadCount
| Trailing (rest : list ascii)
| Exhausted.

Inductive presult (A : Type) : Type :=
| Ok (v : A)
| Fail (e : parse_error).
Arguments Ok {A} v.
Arguments Fail {A} e.

Definition is_upper (c : ascii) : bool :=
  let n := nat_of_ascii c in (65 <=? n) && (n <=? 90).
Definition is_lower (c : ascii) : bool :=
  let n := nat_of_ascii c in (97 <=? n) && (n <=? 122).
Definition is_digit (c : ascii) : bool :=
  let n := nat_of_ascii c in (48 <=? n) && (n <=? 57).
Definition is_sep (c : ascii) : bool :=
  (c =? " ")%char || (c =? "+")%char.

Fixpoint take_while (p : ascii -> bool) (l : list ascii) : list ascii * list ascii :=
  match l with
  | [] => ([], [])
  | c :: l' => if p c then let '(xs, r) := take_while p l' in (c :: xs, r) else ([], l)
  end.

Definition digit_val (c : ascii) : N := N.of_nat (nat_of_ascii c - 48).

Definition digits_value (ds : list ascii) : N :=
  fold_left (fun n c => n * 10 + digit_val c)%N ds 0%N.

(** An optional count literal. *)
Definition p_count (l : list ascii) : presult (option decimal * list ascii) :=
  match take_while is_digit l with
  | ([], _) => Ok (None, l)
  | (ds, c :: r) =>
      if (c =? ".")%char then
        match take_while is_digit r with
        | ([], _) => Fail BadCount
        | (fs, r') => Ok (Some (Dec (digits_value (ds ++ fs)) (length fs)), r')
        end
      else Ok (Some (Dec (digits_value ds) 0), c :: r)
  | (ds, []) => Ok (Some (Dec (digits_value ds) 0), [])
  end.

Definition count_or_one (oc : option decimal) : decimal :=
  match oc with Some d => d | None => dec_one end.

(** An element symbol with an optional isotope selector. *)
Definition p_atom (l : list ascii) : presult (atom * list ascii) :=
  match l with
  | c :: l1 =>
      if is_upper c then
        let '(lows, r) := take_while is_lower l1 in
        let sym := c :: lows in
        match find_symbol sym with
        | None => Fail (UnknownSymbol sym)
        | Some el =>
            match r with
            | b :: r1 =>
                if (b =? "[")%char then
                  match take_while is_digit r1 with
                  | (ds, e :: r2) =>
                      if negb (bool_decide (ds = [])) && (e =? "]")%char
                         && isotope_valid el (digits_value ds)
                      then Ok (Iso (number el) (digits_value ds), r2)
                      else Fail (InvalidIsotope sym)
                  | (_, []) => Fail (InvalidIsotope sym)
                  end
                else Ok (Elem (number el), r)
            | [] => Ok (Elem (number el), [])
            end
        end
      else Fail (Trailing l)
  | [] => Fail (Trailing [])
  end.

Definition starts_term (l : list ascii) : bool :=
  match l with c :: _ => is_upper c || (c =? "(")%char | [] => false end.
Definition starts_run (l : list ascii) : bool :=
  match l with c :: _ => is_digit c || is_upper c || (c =? "(")%char | [] => false end.
Definition starts_sep (l : list ascii) : bool :=
  match l with c :: _ => is_sep c | [] => false end.

(** The recursive descent; [n] bounds the depth of the calls. *)
Fixpoint p_formula (n : nat) (l : list ascii) : presult (list fragment * list ascii) :=
  match n with
  | O => Fail Exhausted
  | S n' =>
      match p_run n' l with
      | Fail e => Fail e
      | Ok (fs, r) =>
          match p_more n' r with
          | Fail e => Fail e
          | Ok (gs, r') => Ok (fs ++ gs, r')
          end
      end
  end
with p_more (n : nat) (l : list ascii) : presult (list fragment * list ascii) :=
  match n with
  | O => Fail Exhausted
  | S n' =>
      if starts_sep l then
        match p_run n' (snd (take_while is_sep l)) with
        | Fail e => Fail e
        | Ok (fs, r) =>
            match p_more n' r with
            | Fail e => Fail e
            | Ok (gs, r') => Ok (fs ++ gs, r')
            end
        end
      else Ok ([], l)
  end
with p_run (n : nat) (l : list ascii) : presult (list fragment * list ascii) :=
  match n with
  | O => Fail Exhausted
  | S n' =>
      if starts_run l then
        match p_count l with
        | Fail e => Fail e
        | Ok (oc, r) =>
            if starts_term r then
              match p_terms n' r with
              | Fail e => Fail e
              | Ok (ts, r') =>
                  Ok (match oc with None => ts | Some c => [(c, TSub ts)] end, r')
              end
            else Fail (Trailing l)
        end
      else Fail (Trailing l)
  end
with p_terms (n : nat) (l : list ascii) : presult (list fragment * list ascii) :=
  match n with
  | O => Fail Exhausted
  | S n' =>
      match p_term n' l with
      | Fail e => Fail e
      | Ok (t, r) =>
          if starts_term r then
            match p_terms n' r with
            | Fail e => Fail e
            | Ok (ts, r') => Ok (t :: ts, r')
            end
          else Ok ([t], r)
      end
  end
with p_term (n : nat) (l : list ascii) : presult (fragment * list ascii) :=
  match n with
  | O => Fail Exhausted
  | S n' =>
      match l with
      | c :: l1 =>
          if (c =? "(")%char then
            match p_formula n' l1 with
            | Fail e => Fail e
            | Ok (fs, r) =>
                match r with
                | d :: r1 =>
                    if (d =? ")")%char then
                      match p_count r1 with
                      | Fail e => Fail e
                      | Ok (oc, r2) => Ok ((count_or_one oc, TSub fs), r2)
                      end
                    else Fail Unbalanced
                | [] => Fail Unbalanced
                end
            end
          else
            match p_atom l with
            | Fail e => Fail e
            | Ok (x, r) =>
                match p_count r with
                | Fail e => Fail e
                | Ok (oc, r2) => Ok ((count_or_one oc, TAtom x), r2)
                end
            end
      | [] => Fail (Trailing [])
      end
  end.

(** The whole input: an optional formula, then the end of the input. *)
Definition parse_chars (l : list ascii) : presult (list fragment) :=
  match l with
  | [] => Ok []
  | _ =>
      match p_formula (4 * length l + 4) l with
      | Fail e => Fail e
      | Ok (fs, []) => Ok fs
      | Ok (fs, c :: r) => Fail (if (c =? ")")%char then Unbalanced else Trailing (c :: r))
      end
  end.

(** [formula(string)]: the parsed Formula, with no density and no name. *)
Definition parse (s : string) : presult Formula :=
  match parse_chars (list_ascii_of_string s) with
  | Ok fs => Ok (MkFormula fs None None)
  | Fail e => Fail e
  end.

Definition parse_flatten (s : string) : option composition :=
  match parse s with Ok F => Some (flatten F) | Fail _ => None end.

(* ------------------------------------------------------------------ *)
(** ** The grammar as a relation *)

(** The sentences of the formula grammar of section 4.1 and the fragment
    trees they denote; [input_g s fs] holds when the whole input [s] is a
    formula (or empty) with symbols of the catalog, valid isotopes, balanced
    parentheses and well-formed count literals. *)
Inductive count_lit : list ascii -> decimal -> Prop :=
| CountInt (ds : list ascii) :
    ds <> [] -> Forall (fun c => is_digit c = true) ds ->
    count_lit ds (Dec (digits_value ds) 0)
| CountDec (ds fs : list ascii) :
    ds <> [] -> fs <> [] ->
    Forall (fun c => is_digit c = true) ds -> Forall (fun c => is_digit c = true) fs ->
    count_lit (ds ++ "."%char :: fs) (Dec (digits_value (ds ++ fs)) (length fs)).

Inductive opt_count : list ascii -> decimal -> Prop :=
| NoCount : opt_count [] dec_one
| SomeCount (s : list ascii) (d : decimal) : count_lit s d -> opt_count s d.

Inductive atom_g : list ascii -> atom -> Prop :=
| AtomElem (c : ascii) (lows : list ascii) (el : element) :
    is_upper c = true -> Forall (fun c => is_lower c = true) lows ->
    find_symbol (c :: lows) = Some el ->
    atom_g (c :: lows) (Elem (number el))
| AtomIso (c : ascii) (lows ds : list ascii) (el : element) :
    is_upper c = true -> Forall (fun c => is_lower c = true) lows ->
    find_symbol (c :: lows) = Some el ->
    ds <> [] -> Forall (fun c => is_digit c = true) ds ->
    isotope_valid el (digits_value ds) = true ->
    atom_g (c :: lows ++ "["%char :: ds ++ ["]"%char]) (Iso (number el) (digits_value ds)).

Inductive term_g : list ascii -> fragment -> Prop :=
| TermAtom (s c : list ascii) (x : atom) (d : decimal) :
    atom_g s x -> opt_count c d -> term_g (s ++ c) (d, TAtom x)
| TermGroup (s c : list ascii) (fs : list fragment) (d : decimal) :
    formula_g s fs -> opt_count c d -> term_g ("("%char :: s ++ ")"%char :: c) (d, TSub fs)
with terms_g : list ascii -> list fragment -> Prop :=
| TermsOne (s : list ascii) (t : fragment) : term_g s t -> terms_g s [t]
| TermsCons (s s' : list ascii) (t : fragment) (ts : list fragment) :
    term_g s t -> terms_g s' ts -> terms_g (s ++ s') (t :: ts)
with run_g : list ascii -> list fragment -> Prop :=
| RunPlain (s : list ascii) (ts : list fragment) : terms_g s ts -> run_g s ts
| RunScaled (c s : list ascii) (d : decimal) (ts : list fragment) :
    count_lit c d -> terms_g s ts -> run_g (c ++ s) [(d, TSub ts)]
with more_g : list ascii -> list fragment -> Prop :=
| MoreNil : more_g [] []
| MoreCons (p s s' : list ascii) (fs gs : list fragment) :
    p <> [] -> Forall (fun c => is_sep c = true) p ->
    run_g s fs -> more_g s' gs -> more_g (p ++ s ++ s') (fs ++ gs)
with formula_g : list ascii -> list fragment -> Prop :=
| FormulaRuns (s s' : list ascii) (fs gs : list fragment) :
    run_g s fs -> more_g s' gs -> formula_g (s ++ s') (fs ++ gs).

Inductive input_g : list ascii -> list fragment -> Prop :=
| InputEmpty : input_g [] []
| InputFormula (s : list ascii) (fs : list fragment) : formula_g s fs -> input_g s fs.

Scheme term_g_mut := Induction for term_g Sort Prop
with terms_g_mut := Induction for terms_g Sort Prop
with run_g_mut := Induction for run_g Sort Prop
with more_g_mut := Induction for more_g Sort Prop
with formula_g_mut := Induction for formula_g Sort Prop.
Combined Scheme grammar_mut from term_g_mut, terms_g_mut, run_g_mut, more_g_mut, formula_g_mut.

(** What may follow a term, a run and a formula in a sentence. *)
Definition term_follow (r : list ascii) : Prop :=
  match r with
  | [] => True
  | c :: _ => is_sep c = true \/ c = ")"%char \/ is_upper c = true \/ c = "("%char
  end.
Definition run_follow (r : list ascii) : Prop :=
  match r with [] => True | c :: _ => is_sep c = true \/ c = ")"%char end.
Definition formula_follow (r : list ascii) : Prop :=
  match r with [] => True | c :: _ => c = ")"%char end.
Definition count_follow (r : list ascii) : Prop :=
  match r with [] => True | c :: _ => is_digit c = false /\ c <> "."%char end.
Definition atom_follow (r : list ascii) : Prop :=
  match r with [] => True | c :: _ => is_lower c = false /\ c <> "["%char end.

(** The first character of [s] satisfies [P]. *)
Definition hd_is (P : ascii -> Prop) (s : list ascii) : Prop :=
  match s with c :: _ => P c | [] => False end.

(* ------------------------------------------------------------------ *)
(** ** String rendering *)

(** Decimal digits of [m], least significant first; [f] bounds the number
    of digits. *)
Fixpoint digits_rev (f : nat) (m : N) : list ascii :=
  match f with
  | O => []
  | S f' =>
      ascii_of_nat (48 + N.to_nat (m mod 10)) ::
      (if (m <? 10)%N then [] else digits_rev f' (m / 10))
  end.

Definition N_digits (m : N) : list ascii := rev (digits_rev (S (N.to_nat (N.size m))) m).

(** Modelled from the spec: a count as a decimal literal, left out when it
    is 1 ([Dec m e] is written with [e] digits after the point). *)
Definition render_decimal (d : decimal) : list ascii :=
  match dexp d with
  | O => N_digits (mant d)
  | e =>
      let ds := N_digits (mant d) in
      let ds' := repeat "0"%char (S e - length ds) ++ ds in
      let k := length ds' - e in
      take k ds' ++ "."%char :: drop k ds'
  end.

#[global] Instance decimal_eq_dec : EqDecision decimal.
Proof. solve_decision. Defined.

Definition render_count (d : decimal) : list ascii :=
  if decide (d = dec_one) then [] else render_decimal d.

Definition render_atom (x : atom) : list ascii :=
  match x with
  | Elem z =>
      match find_number z with Some el => list_ascii_of_string (symbol el) | None => [] end
  | Iso z a =>
      match find_number z with
      | Some el => list_ascii_of_string (symbol el) ++ "["%char :: N_digits a ++ ["]"%char]
      | None => []
      end
  end.

Fixpoint render_frags_with (rt : target -> list ascii) (fs : list fragment) : list ascii :=
  match fs with
  | [] => []
  | (c, t) :: fs' => rt t ++ render_count c ++ render_frags_with rt fs'
  end.

(** Modelled from the spec: the canonical textual form of the fragment tree:
    each fragment is its target followed by its count, a nested formula in
    parentheses. *)
Fixpoint render_target (t : target) : list ascii :=
  match t with
  | TAtom x => render_atom x
  | TSub fs => "("%char :: render_frags_with render_target fs ++ [")"%char]
  end.

Definition render_frags (fs : list fragment) : list ascii := render_frags_with render_target fs.

Definition render (F : Formula) : string := string_of_list_ascii (render_frags (structure F)).

(** A symbol the grammar reads: an upper-case letter followed by lower-case
    letters (every symbol of the catalog but the neutron's [n]). *)
Definition symbol_readable (s : string) : bool :=
  match list_ascii_of_string s with
  | c :: lows => is_upper c && forallb is_lower lows
  | [] => false
  end.

(** Atom references of the catalog whose element symbol the grammar reads. *)
Definition atom_valid (x : atom) : bool :=
  match x with
  | Elem z => match find_number z with Some el => symbol_readable (symbol el) | None => false end
  | Iso z a =>
      match find_number z with
      | Some el => symbol_readable (symbol el) && isotope_valid el a
      | None => false
      end
  end.

Fixpoint wf_target (t : target) : bool :=
  match t with
  | TAtom x => atom_valid x
  | TSub [] => false
  | TSub fs => forallb (fun p => wf_target (snd p)) fs
  end.

(** A Formula whose atoms are catalog entries with a symbol the grammar
    reads (an upper-case letter followed by lower-case letters), with valid
    isotope numbers, and whose nested sub-formulas are not empty. *)
Definition wf_formula (F : Formula) : bool := forallb (fun p => wf_target (snd p)) (structure F).

(** Induction over the nested fragment trees. *)
Fixpoint target_ind' (P : target -> Prop)
  (Hatom : forall x, P (TAtom x))
  (Hsub : forall fs, Forall (fun p => P (snd p)) fs -> P (TSub fs)) (t : target) : P t :=
  match t with
  | TAtom x => Hatom x
  | TSub fs =>
      Hsub fs ((fix go (fs : list fragment) : Forall (fun p => P (snd p)) fs :=
                  match fs with
                  | [] => @List.Forall_nil _ (fun p => P (snd p))
                  | (c, t') :: fs' =>
                      @List.Forall_cons _ (fun p => P (snd p)) (c, t') fs'
                        (target_ind' P Hatom Hsub t') (go fs')
                  end) fs)
  end.

(* ------------------------------------------------------------------ *)
(** ** Mass *)

Section Mass.
(** The mass table of each atom reference (mass.py). *)
Variable mass_of : atom -> option Q.

(** Modelled from the spec: [sum(count * atom.mass for atom, count in
    flatten(F))], accumulated from 0; an atom without a mass datum makes the
    whole sum undefined. *)
Fixpoint mass_sum (acc : Q) (items : list (atom * Qc)) : option Q :=
  match items with
  | [] => Some acc
  | (x, c) :: items' =>
      match mass_of x with
      | Some m => mass_sum (acc + this c * m) items'
      | None => None
      end
  end.

Definition total_mass (F : Formula) : option Q :=
  mass_sum 0 (map_to_list (flatten F)).
End Mass.

(** The sum of [count * w atom] over a composition. *)
Definition weighted (w : atom -> Q) (m : composition) : Q :=
  fold_right Qplus 0%Q (map (fun '(x, c) => (this c * w x)%Q) (map_to_list m)).

(* ------------------------------------------------------------------ *)
(** ** Scattering length densities *)

Inductive sld_error : Type :=
| SldParseError (e : parse_error)
| MissingDensityError.

(** The first argument of [neutron_sld] and [xray_sld]: a Formula or a
    string, parsed on the way in. *)
Inductive sld_input : Type :=
| InFormula (F : Formula)
| InString (s : string).

Definition as_formula (x : sld_input) : sld_error + Formula :=
  match x with
  | InFormula F => inr F
  | InString s => match parse s with Ok F => inr F | Fail e => inl (SldParseError e) end
  end.

(** Modelled from the spec: the explicit density argument, else the density
    declared on the Formula. *)
Definition effective_density (density : option Q) (F : Formula) : option Q :=
  match density with Some d => Some d | None => fdensity F end.

Section Scattering.
(** The per-atom scattering tables and the composition-weighted sums of
    nsf.py and xsf.py, given the composition and the density. *)
Variable neutron_eval : composition -> Q -> Q -> Q * Q * Q.
Variable xray_eval : composition -> Q -> option Q -> option Q -> Q * Q.

(** Modelled from the spec (nsf.neutron_sld is missing). *)
Definition neutron_sld (x : sld_input) (density : option Q) (wavelength : Q)
  : sld_error + (Q * Q * Q) :=
  match as_formula x with
  | inl e => inl e
  | inr F =>
      match effective_density density F with
      | None => inl MissingDensityError
      | Some rho => inr (neutron_eval (flatten F) rho wavelength)
      end
  end.

(** Modelled from the spec (xsf.xray_sld is missing). *)
Definition xray_sld (x : sld_input) (density wavelength energy : option Q)
  : sld_error + (Q * Q) :=
  match as_formula x with
  | inl e => inl e
  | inr F =>
      match effective_density density F with
      | None => inl MissingDensityError
      | Some rho => inr (xray_eval (flatten F) rho wavelength energy)
      end
  end.
End Scattering.

(* ------------------------------------------------------------------ *)
(** ** Property groups registered at import *)

Module Registry.

(** The initialisation calls of the property groups. *)
Inductive loader : Type :=
| LMass | LDensity | LCovalentRadius | LCrystalStructure | LNeutron | LXray.

Global Instance loader_eq_dec : EqDecision loader.
Proof. solve_decision. Defined.

(** The attribute groups each call installs: mass.init, density.init,
    covalent_radius.init, crystal_structure.init, nsf.init, and
    xsf.init followed by xsf.init_spectral_lines (_load_xray). *)
Definition installs (l : loader) : list string :=
  match l with
  | LMass => ["mass"]
  | LDensity => ["density"]
  | LCovalentRadius => ["covalent_radius"]
  | LCrystalStructure => ["crystal_structure"]
  | LNeutron => ["neutron"]
  | LXray => ["xray"; "K_alpha"; "K_beta1"]
  end.

Record state : Type := MkState {
  installed : list string;                 (* attribute groups present *)
  pending : list (list string * loader);   (* delayed_load registrations *)
  log : list loader;                       (* initialisation calls run *)
  class_attrs : list (string * string)     (* plain class attributes *)
}.

Definition run_loader (l : loader) (st : state) : state :=
  MkState (installs l ++ installed st) (pending st) (log st ++ [l]) (class_attrs st).

(** Modelled from the spec: [core.delayed_load(names, loader)] (core.py is
    missing) registers [loader] for the attribute names [names]. *)
Definition delayed_load (names : list string) (l : loader) (st : state) : state :=
  MkState (installed st) (pending st ++ [(names, l)]) (log st) (class_attrs st).

Definition set_class_attr (k v : string) (st : state) : state :=
  MkState (installed st) (pending st) (log st) ((k, v) :: class_attrs st).

(** Modelled from the spec: reading attribute [attr] of an element.  An
    installed group, or a class attribute such as [K_alpha_units], is read
    directly; otherwise the registration naming [attr] is removed (all its
    names at once, the one-time guard) and its loader is run.  The boolean
    says whether the attribute is present. *)
Definition access (attr : string) (st : state) : state * bool :=
  if bool_decide (attr ∈ installed st) then (st, true) else
  if bool_decide (attr ∈ map fst (class_attrs st)) then (st, true) else
  match find (fun '(names, _) => bool_decide (attr ∈ names)) (pending st) with
  | Some (names, l) =>
      let st1 := MkState (installed st)
                    (filter (fun '(ns, _) => ns ≠ names) (pending st))
                    (log st) (class_attrs st) in
      let st2 := run_loader l st1 in
      (st2, bool_decide (attr ∈ installed st2))
  | None => (st, false)
  end.

Definition run_accesses (attrs : list string) (st : state) : state :=
  fold_left (fun st a => fst (access a st)) attrs st.

Definition initial : state := MkState [] [] [] [].

(** [import periodictable], lines 94-152 of __init__.py. *)
Definition import_periodictable : state :=
  let st := run_loader LMass initial in                                 (* mass.init *)
  let st := run_loader LDensity st in                                   (* density.init *)
  let st := delayed_load ["covalent_radius"] LCovalentRadius st in
  let st := delayed_load ["crystal_structure"] LCrystalStructure st in
  let st := delayed_load ["neutron"] LNeutron st in
  let st := delayed_load ["xray"; "K_alpha"; "K_beta1"] LXray st in
  let st := set_class_attr "K_alpha_units" "angstrom" st in
  set_class_attr "K_beta1_units" "angstrom" st.

(** The four [core.delayed_load] registrations made at import, in order
    (lines 109, 119, 132 and 150). *)
Definition registrations : list (list string * loader) :=
  [(["covalent_radius"], LCovalentRadius); (["crystal_structure"], LCrystalStructure);
   (["neutron"], LNeutron); (["xray"; "K_alpha"; "K_beta1"], LXray)].

(** The loader registered for an attribute name, if any. *)
Definition owner (a : string) : option loader :=
  option_map snd (find (fun '(names, _) => bool_decide (a ∈ names)) registrations).

(** The loaders run so far after one more read of [a]: the owner of [a] is
    appended the first time one of its names is read. *)
Definition next_loaders (ls : list loader) (a : string) : list loader :=
  match owner a with
  | Some l => if bool_decide (l ∈ ls) then ls else ls ++ [l]
  | None => ls
  end.

Definition loaders_after (attrs : list string) : list loader := fold_left next_loaders attrs [].

(** The state once the delayed loaders [ls] have run, in this order. *)
Definition after_loaders (ls : list loader) : state :=
  MkState (fold_left (fun acc l => installs l ++ acc) ls ["density"; "mass"])
          (filter (fun '(_, l) => l ∉ ls) registrations)
          ([LMass; LDensity] ++ ls)
          (class_attrs import_periodictable).

(** Every attribute name some initialisation call installs, and the class
    attributes set at import. *)
Definition known_names : list string :=
  ["mass"; "density"; "covalent_radius"; "crystal_structure"; "neutron"; "xray"; "K_alpha"; "K_beta1";
   "K_alpha_units"; "K_beta1_units"].

End Registry.

(* ------------------------------------------------------------------ *)
(** ** Algebra of compositions *)

Lemma merge_empty_l (m : composition) : merge ∅ m = m.
Proof. apply map_eq; intros i. unfold merge. rewrite lookup_union_with, lookup_empty. by destruct (m !! i). Qed.

Lemma merge_empty_r (m : composition) : merge m ∅ = m.
Proof. apply map_eq; intros i. unfold merge. rewrite lookup_union_with, lookup_empty. by destruct (m !! i). Qed.

Lemma merge_assoc (m1 m2 m3 : composition) :
  merge m1 (merge m2 m3) = merge (merge m1 m2) m3.
Proof.
  apply map_eq; intros i. unfold merge. rewrite !lookup_union_with.
  destruct (m1 !! i), (m2 !! i), (m3 !! i); simpl; try done.
  by rewrite Qcplus_assoc.
Qed.

Lemma merge_comm (m1 m2 : composition) : merge m1 m2 = merge m2 m1.
Proof.
  apply map_eq; intros i. unfold merge. rewrite !lookup_union_with.
  destruct (m1 !! i), (m2 !! i); simpl; try done. by rewrite Qcplus_comm.
Qed.

Lemma scale_comp_merge (k : Qc) (m1 m2 : composition) :
  scale_comp k (merge m1 m2) = merge (scale_comp k m1) (scale_comp k m2).
Proof.
  apply map_eq; intros i. unfold merge, scale_comp.
  rewrite lookup_fmap, !lookup_union_with, !lookup_fmap.
  destruct (m1 !! i), (m2 !! i); simpl; try done. by rewrite Qcmult_plus_distr_r.
Qed.

Lemma scale_comp_empty (k : Qc) : scale_comp k ∅ = ∅.
Proof. unfold scale_comp. by rewrite fmap_empty. Qed.

Lemma scale_comp_scale_comp (k c : Qc) (m : composition) :
  scale_comp k (scale_comp c m) = scale_comp (k * c)%Qc m.
Proof.
  apply map_eq; intros i. unfold scale_comp. rewrite !lookup_fmap.
  destruct (m !! i); simpl; try done. by rewrite Qcmult_assoc.
Qed.

Lemma Q2Qc_mult (a b : Q) : Q2Qc (a * b) = (Q2Qc a * Q2Qc b)%Qc.
Proof.
  unfold Qcmult. apply Q2Qc_eq_iff. simpl. by rewrite !Qred_correct.
Qed.

Lemma dec_Q_mul (k c : decimal) : dec_Q (dec_mul k c) == dec_Q k * dec_Q c.
Proof.
  unfold dec_Q, dec_mul; simpl.
  rewrite N2Z.inj_mul, Nat2Z.inj_add, Z.pow_add_r by lia.
  rewrite !inject_Z_mult.
  assert (~ inject_Z (10 ^ Z.of_nat (dexp k)) == 0).
  { intros Hc; unfold Qeq in Hc; simpl in Hc.
    revert Hc. rewrite Z.mul_1_r. apply Z.pow_nonzero; lia. }
  assert (~ inject_Z (10 ^ Z.of_nat (dexp c)) == 0).
  { intros Hc; unfold Qeq in Hc; simpl in Hc.
    revert Hc. rewrite Z.mul_1_r. apply Z.pow_nonzero; lia. }
  field; auto.
Qed.

Lemma dec_Qc_mul (k c : decimal) : dec_Qc (dec_mul k c) = (dec_Qc k * dec_Qc c)%Qc.
Proof. unfold dec_Qc. rewrite <- Q2Qc_mult. apply Q2Qc_eq_iff, dec_Q_mul. Qed.

Lemma flatten_frags_nil : flatten_frags [] = ∅.
Proof. reflexivity. Qed.

Lemma flatten_frags_cons (c : decimal) (t : target) (fs : list fragment) :
  flatten_frags ((c, t) :: fs) =
  merge (scale_comp (dec_Qc c) (flatten_target t)) (flatten_frags fs).
Proof. reflexivity. Qed.

Lemma flatten_frags_app (fs gs : list fragment) :
  flatten_frags (fs ++ gs) = merge (flatten_frags fs) (flatten_frags gs).
Proof.
  induction fs as [|[c t] fs IH]; simpl.
  - by rewrite flatten_frags_nil, merge_empty_l.
  - rewrite !flatten_frags_cons, IH. apply merge_assoc.
Qed.

Lemma flatten_frags_scale_top (k : decimal) (fs : list fragment) :
  flatten_frags (map (fun '(c, t) => (dec_mul k c, t)) fs) =
  scale_comp (dec_Qc k) (flatten_frags fs).
Proof.
  induction fs as [|[c t] fs IH]; simpl.
  - by rewrite flatten_frags_nil, scale_comp_empty.
  - rewrite !flatten_frags_cons, IH, scale_comp_merge, scale_comp_scale_comp.
    by rewrite dec_Qc_mul.
Qed.


(* ------------------------------------------------------------------ *)
(** ** Invariants of the property-group registry *)

Section RegistryFacts.
Import Registry.

Definition all_groups : list string :=
  ["mass"; "density"; "neutron"; "xray"; "K_alpha"; "K_beta1";
   "covalent_radius"; "crystal_structure"].

Definition lazy_groups : list string :=
  ["neutron"; "xray"; "K_alpha"; "K_beta1"; "covalent_radius"; "crystal_structure"].

(** No initialisation call is run twice nor both run and still pending. *)
Definition once_inv (st : state) : Prop := NoDup (log st ++ map snd (pending st)).

(** A registration only names groups its loader installs. *)
Definition names_inv (st : state) : Prop :=
  forall names l g, (names, l) ∈ pending st -> g ∈ names -> g ∈ installs l.

(** Every group is installed or named by a pending registration. *)
Definition cover_inv (st : state) : Prop :=
  forall g, g ∈ all_groups -> g ∈ installed st \/ exists names l, (names, l) ∈ pending st /\ g ∈ names.

Lemma nodup_filter_snd (q : list string * loader -> Prop)
      `{forall x, Decision (q x)} (L : list loader) (p : list (list string * loader)) :
  NoDup (L ++ map snd p) -> NoDup (L ++ map snd (filter q p)).
Proof.
  revert L. induction p as [|[ns l] p IH]; intros L Hnd; simpl in *; [done|].
  rewrite filter_cons. case_decide; simpl.
  - replace (L ++ l :: map snd (filter q p)) with ((L ++ [l]) ++ map snd (filter q p))
      by (rewrite <- app_assoc; done).
    apply IH. rewrite <- app_assoc. done.
  - apply IH.
    assert (Hp : L ++ l :: map snd p ≡ₚ l :: L ++ map snd p) by solve_Permutation.
    rewrite Hp in Hnd. by apply NoDup_cons in Hnd as [_ ?].
Qed.

Lemma access_once_inv (a : string) (st : state) :
  once_inv st -> once_inv (fst (access a st)).
Proof.
  unfold once_inv, access. intros Hnd.
  case_bool_decide; [done|]. case_bool_decide; [done|].
  destruct (find _ (pending st)) as [[names l]|] eqn:Hf; [|done]. simpl.
  apply find_some in Hf as [Hin _]. apply list_elem_of_In in Hin.
  apply list_elem_of_split in Hin as (p1 & p2 & Hp).
  rewrite Hp in Hnd |- *. rewrite filter_app, filter_cons.
  case_decide as Hq; [congruence|].
  rewrite <- filter_app.
  apply nodup_filter_snd.
  rewrite map_app in Hnd |- *. simpl in Hnd.
  assert (Hp' : log st ++ map snd p1 ++ l :: map snd p2 ≡ₚ
                (log st ++ [l]) ++ map snd p1 ++ map snd p2) by solve_Permutation.
  by rewrite <- Hp'.
Qed.

Lemma access_names_inv (a : string) (st : state) :
  names_inv st -> names_inv (fst (access a st)).
Proof.
  unfold names_inv, access. intros Hn.
  case_bool_decide; [done|]. case_bool_decide; [done|].
  destruct (find _ (pending st)) as [[names l]|] eqn:Hf; [|done]. simpl.
  intros ns l' g Hin Hg. apply list_elem_of_filter in Hin as [_ Hin]. eauto.
Qed.

Lemma access_installs (a : string) (st : state) :
  names_inv st -> a ∉ map fst (class_attrs st) ->
  (a ∈ installed st \/ exists names l, (names, l) ∈ pending st /\ a ∈ names) ->
  snd (access a st) = true /\ a ∈ installed (fst (access a st)).
Proof.
  unfold access. intros Hn Hca Hc.
  case_bool_decide as Hi; [done|]. case_bool_decide; [contradiction|].
  destruct Hc as [Hc|(names & l & Hin & Ha)]; [done|].
  destruct (find _ (pending st)) as [[ns l']|] eqn:Hf.
  - apply find_some in Hf as [Hin' Hb]. apply list_elem_of_In in Hin'.
    apply bool_decide_eq_true in Hb.
    assert (a ∈ installs l') by (eapply Hn; eauto).
    simpl. rewrite bool_decide_eq_true. split; [|]; set_solver.
  - exfalso. apply list_elem_of_In in Hin.
    pose proof (find_none _ _ Hf _ Hin) as Hb. simpl in Hb.
    apply bool_decide_eq_false in Hb. done.
Qed.

Lemma access_cover_inv (a : string) (st : state) :
  names_inv st -> cover_inv st -> cover_inv (fst (access a st)).
Proof.
  unfold cover_inv, access. intros Hn Hc g Hg.
  case_bool_decide; [auto|]. case_bool_decide; [auto|].
  destruct (find _ (pending st)) as [[names l]|] eqn:Hf; [|auto]. simpl.
  apply find_some in Hf as [Hin _]. apply list_elem_of_In in Hin.
  destruct (Hc g Hg) as [Hi|(ns & l' & Hin' & Hgn)]; [set_solver|].
  destruct (decide (ns = names)) as [->|Hne].
  - left. apply elem_of_app. left. eapply Hn; eauto.
  - right. exists ns, l'. split; [|done]. apply list_elem_of_filter. by split.
Qed.

Lemma access_class_attrs (a : string) (st : state) :
  class_attrs (fst (access a st)) = class_attrs st.
Proof.
  unfold access. case_bool_decide; [done|]. case_bool_decide; [done|].
  destruct (find _ (pending st)) as [[names l]|]; done.
Qed.

Lemma run_accesses_class_attrs (attrs : list string) (st : state) :
  class_attrs (run_accesses attrs st) = class_attrs st.
Proof.
  revert st. induction attrs as [|a attrs IH]; intros st; [done|].
  unfold run_accesses in *. simpl. rewrite IH. apply access_class_attrs.
Qed.

Lemma run_accesses_invs (attrs : list string) (st : state) :
  once_inv st -> names_inv st -> cover_inv st ->
  once_inv (run_accesses attrs st) /\ names_inv (run_accesses attrs st) /\
  cover_inv (run_accesses attrs st).
Proof.
  revert st. induction attrs as [|a attrs IH]; intros st Ho Hn Hc; simpl; [done|].
  apply IH.
  - by apply access_once_inv.
  - by apply access_names_inv.
  - by apply access_cover_inv.
Qed.

Lemma import_invs :
  once_inv import_periodictable /\ names_inv import_periodictable /\
  cover_inv import_periodictable.
Proof.
  split; [|split].
  - unfold once_inv. simpl. repeat constructor; set_solver.
  - unfold names_inv. simpl. intros names l g Hin Hg.
    apply list_elem_of_In in Hin. simpl in Hin.
    repeat destruct Hin as [Hin|Hin]; try contradiction;
      injection Hin as <- <-; simpl; set_solver.
  - unfold cover_inv, all_groups. simpl. intros g Hg.
    apply list_elem_of_In in Hg. simpl in Hg.
    repeat destruct Hg as [Hg|Hg]; try contradiction; subst g;
      [left; set_solver | left; set_solver
      | right; exists ["neutron"], LNeutron
      | right; exists ["xray"; "K_alpha"; "K_beta1"], LXray
      | right; exists ["xray"; "K_alpha"; "K_beta1"], LXray
      | right; exists ["xray"; "K_alpha"; "K_beta1"], LXray
      | right; exists ["covalent_radius"], LCovalentRadius
      | right; exists ["crystal_structure"], LCrystalStructure];
      split; set_solver.
Qed.

Lemma run_accesses_once (attrs : list string) :
  NoDup (log (run_accesses attrs import_periodictable)).
Proof.
  destruct import_invs as (Ho & Hn & Hc).
  destruct (run_accesses_invs attrs _ Ho Hn Hc) as (Ho' & _ & _).
  unfold once_inv in Ho'. by apply NoDup_app in Ho' as [? _].
Qed.

Lemma run_accesses_access (attrs : list string) (g : string) :
  g ∈ all_groups ->
  snd (access g (run_accesses attrs import_periodictable)) = true /\
  g ∈ installed (fst (access g (run_accesses attrs import_periodictable))).
Proof.
  intros Hg. destruct import_invs as (Ho & Hn & Hc).
  destruct (run_accesses_invs attrs _ Ho Hn Hc) as (_ & Hn' & Hc').
  apply access_installs; auto.
  rewrite run_accesses_class_attrs. unfold all_groups in Hg. simpl.
  intros Hin. apply list_elem_of_In in Hin, Hg. simpl in Hin, Hg.
  repeat destruct Hin as [Hin|Hin]; try contradiction; subst g;
    repeat destruct Hg as [Hg|Hg]; try contradiction; discriminate.
Qed.
End RegistryFacts.

(* ------------------------------------------------------------------ *)
(** ** Facts about the mass sum *)

Section MassFacts.
Variable mass_of : atom -> option Q.

Lemma mass_sum_None (acc : Q) (items : list (atom * Qc)) :
  mass_sum mass_of acc items = None <->
  exists x c, (x, c) ∈ items /\ mass_of x = None.
Proof.
  revert acc. induction items as [|[x c] items IH]; intros acc; simpl.
  - split; [done|]. intros (? & ? & Hin & _). by apply elem_of_nil in Hin.
  - destruct (mass_of x) as [m|] eqn:Hm.
    + rewrite IH. split.
      * intros (y & d & Hin & Hy). exists y, d. split; [apply elem_of_cons; by right|done].
      * intros (y & d & Hin & Hy). apply elem_of_cons in Hin as [Heq|Hin].
        -- injection Heq as -> ->. congruence.
        -- eauto.
    + split; [|done]. intros _. exists x, c. split; [apply elem_of_cons; by left|done].
Qed.

Lemma mass_sum_Some (acc s : Q) (items : list (atom * Qc)) :
  mass_sum mass_of acc items = Some s ->
  (s == acc + fold_right Qplus 0 (map (fun '(x, c) => this c * default 0 (mass_of x)) items))%Q.
Proof.
  revert acc. induction items as [|[x c] items IH]; intros acc; simpl.
  - intros [= ->]. ring.
  - destruct (mass_of x) as [m|]; [|done]. simpl.
    intros Hs. rewrite (IH _ Hs). ring.
Qed.
End MassFacts.

(* ------------------------------------------------------------------ *)
(** ** The parser against the grammar *)

Ltac app_eq := simpl; rewrite <- ?app_assoc; simpl; rewrite <- ?app_assoc; simpl; reflexivity.

Lemma take_while_spec p l xs r :
  take_while p l = (xs, r) ->
  l = xs ++ r /\ Forall (fun c => p c = true) xs /\
  match r with c :: _ => p c = false | [] => True end.
Proof.
  revert xs r. induction l as [|c l IH]; intros xs r H; simpl in H.
  - injection H as <- <-. auto.
  - destruct (p c) eqn:Ep.
    + destruct (take_while p l) as [xs' r'] eqn:E. injection H as <- <-.
      destruct (IH _ _ eq_refl) as (-> & ? & ?). simpl. auto.
    + injection H as <- <-. simpl. auto.
Qed.

Lemma take_while_app p xs r :
  Forall (fun c => p c = true) xs ->
  match r with c :: _ => p c = false | [] => True end ->
  take_while p (xs ++ r) = (xs, r).
Proof.
  intros Hxs Hr. induction Hxs as [|c xs Hc _ IH]; simpl.
  - destruct r as [|c r]; simpl; [reflexivity|]. rewrite Hr. reflexivity.
  - rewrite Hc, IH. reflexivity.
Qed.

Lemma p_count_sound l oc r :
  p_count l = Ok (oc, r) ->
  exists c, l = c ++ r /\ match oc with None => c = [] | Some d => count_lit c d end.
Proof.
  unfold p_count. destruct (take_while is_digit l) as [ds r0] eqn:E.
  apply take_while_spec in E as (-> & Hds & Hr0).
  destruct ds as [|d ds'] eqn:Eds.
  - intros H; injection H as <- <-. exists []. auto.
  - rewrite <- Eds in *. destruct r0 as [|c0 r1].
    + intros H; injection H as <- <-. exists ds. rewrite app_nil_r.
      split; [reflexivity|]. constructor; [subst; discriminate|exact Hds].
    + destruct (c0 =? ".")%char eqn:Ec.
      * apply Ascii.eqb_eq in Ec as ->.
        destruct (take_while is_digit r1) as [fs r2] eqn:E2.
        apply take_while_spec in E2 as (-> & Hfs & _).
        destruct fs as [|f fs'] eqn:Efs; [discriminate|]. rewrite <- Efs in *.
        intros H; injection H as <- <-.
        exists (ds ++ "."%char :: fs). split; [app_eq|].
        constructor; [subst; discriminate|subst; discriminate|exact Hds|exact Hfs].
      * intros H; injection H as <- <-. exists ds.
        split; [reflexivity|]. constructor; [subst; discriminate|exact Hds].
Qed.

Lemma p_count_opt oc c :
  match oc with None => c = [] | Some d => count_lit c d end -> opt_count c (count_or_one oc).
Proof. destruct oc; intros H; [constructor; exact H|subst; constructor]. Qed.

Lemma p_count_fail l e : p_count l = Fail e -> e = BadCount.
Proof.
  unfold p_count. destruct (take_while is_digit l) as [[|d ds] [|c0 r1]]; try discriminate.
  destruct (c0 =? ".")%char; [|discriminate].
  destruct (take_while is_digit r1) as [[|f fs] r2]; congruence.
Qed.

Lemma p_count_none r :
  match r with c :: _ => is_digit c = false | [] => True end -> p_count r = Ok (None, r).
Proof.
  intros H. unfold p_count. pose proof (take_while_app is_digit [] r (Forall_nil_2 _) H) as E.
  simpl in E. rewrite E. reflexivity.
Qed.

Lemma count_lit_complete c d rest :
  count_lit c d -> count_follow rest -> p_count (c ++ rest) = Ok (Some d, rest).
Proof.
  intros Hc Hf. destruct Hc as [ds Hne Hds|ds fs Hne Hfne Hds Hfs].
  - unfold p_count. rewrite (take_while_app is_digit ds rest Hds).
    2:{ destruct rest as [|x r]; [exact I|apply Hf]. }
    destruct ds as [|d0 ds']; [congruence|].
    destruct rest as [|x r]; [reflexivity|].
    destruct Hf as [_ Hx]. apply Ascii.eqb_neq in Hx. rewrite Hx. reflexivity.
  - unfold p_count. rewrite <- app_assoc. simpl.
    rewrite (take_while_app is_digit ds ("."%char :: fs ++ rest) Hds) by reflexivity.
    destruct ds as [|d0 ds']; [congruence|]. simpl (("." =? ".")%char).
    rewrite (take_while_app is_digit fs rest Hfs).
    2:{ destruct rest as [|x r]; [exact I|apply Hf]. }
    destruct fs as [|f0 fs']; [congruence|]. reflexivity.
Qed.

Lemma opt_count_complete c d rest :
  opt_count c d -> count_follow rest ->
  exists oc, p_count (c ++ rest) = Ok (oc, rest) /\ count_or_one oc = d.
Proof.
  intros [|s d' Hs] Hf.
  - exists None. split; [|reflexivity]. apply p_count_none.
    destruct rest as [|x r]; [exact I|apply Hf].
  - exists (Some d'). split; [|reflexivity]. apply count_lit_complete; assumption.
Qed.

Lemma p_atom_sound l x r :
  p_atom l = Ok (x, r) -> exists s, l = s ++ r /\ atom_g s x.
Proof.
  unfold p_atom. destruct l as [|c l1]; [discriminate|].
  destruct (is_upper c) eqn:Hu; [|discriminate].
  destruct (take_while is_lower l1) as [lows r0] eqn:E.
  apply take_while_spec in E as (-> & Hlows & _).
  destruct (find_symbol (c :: lows)) as [el|] eqn:Hf; [|discriminate].
  destruct r0 as [|b r1].
  - intros H; injection H as <- <-. exists (c :: lows).
    split; [simpl; rewrite !app_nil_r; reflexivity|]. constructor; assumption.
  - destruct (b =? "[")%char eqn:Eb.
    + apply Ascii.eqb_eq in Eb as ->.
      destruct (take_while is_digit r1) as [ds r2] eqn:E2.
      apply take_while_spec in E2 as (-> & Hds & _).
      destruct r2 as [|e r3]; [discriminate|].
      destruct (negb (bool_decide (ds = [])) && (e =? "]")%char
                && isotope_valid el (digits_value ds)) eqn:Ec; [|discriminate].
      apply andb_prop in Ec as [Ec Hv]. apply andb_prop in Ec as [Hne He].
      apply Ascii.eqb_eq in He as ->. apply negb_true_iff, bool_decide_eq_false in Hne.
      intros H; injection H as <- <-.
      exists (c :: lows ++ "["%char :: ds ++ ["]"%char]).
      split; [app_eq|].
      constructor; assumption.
    + intros H; injection H as <- <-. exists (c :: lows).
      split; [reflexivity|]. constructor; assumption.
Qed.

Lemma p_atom_fail l e :
  p_atom l = Fail e -> exists sym, e = UnknownSymbol sym \/ e = InvalidIsotope sym \/ e = Trailing sym.
Proof.
  unfold p_atom. destruct l as [|c l1]; [intros H; injection H as <-; eauto|].
  destruct (is_upper c); [|intros H; injection H as <-; eauto].
  destruct (take_while is_lower l1) as [lows r0].
  destruct (find_symbol (c :: lows)) as [el|]; [|intros H; injection H as <-; eauto].
  destruct r0 as [|b r1]; [discriminate|].
  destruct (b =? "[")%char; [|discriminate].
  destruct (take_while is_digit r1) as [ds [|e0 r3]]; [intros H; injection H as <-; eauto|].
  destruct (_ && _); [discriminate|]. intros H; injection H as <-; eauto.
Qed.

Lemma p_atom_complete s x rest :
  atom_g s x -> atom_follow rest -> p_atom (s ++ rest) = Ok (x, rest).
Proof.
  intros Hs Hf. destruct Hs as [c lows el Hu Hl Hfind|c lows ds el Hu Hl Hfind Hne Hds Hv].
  - simpl. rewrite Hu.
    rewrite (take_while_app is_lower lows rest Hl).
    2:{ destruct rest as [|y r]; [exact I|apply Hf]. }
    rewrite Hfind. destruct rest as [|b r]; [reflexivity|].
    destruct Hf as [_ Hb]. apply Ascii.eqb_neq in Hb. rewrite Hb. reflexivity.
  - simpl. rewrite Hu. rewrite <- app_assoc. simpl.
    rewrite (take_while_app is_lower lows _ Hl) by reflexivity.
    rewrite Hfind. simpl (("[" =? "[")%char). rewrite <- app_assoc. simpl.
    rewrite (take_while_app is_digit ds _ Hds) by reflexivity.
    rewrite (proj2 (bool_decide_eq_false _) Hne), Hv. reflexivity.
Qed.

(** Soundness of the recursive descent. *)
Lemma parser_sound n :
  (forall l fs r, p_formula n l = Ok (fs, r) -> exists s, l = s ++ r /\ formula_g s fs) /\
  (forall l fs r, p_more n l = Ok (fs, r) -> exists s, l = s ++ r /\ more_g s fs) /\
  (forall l fs r, p_run n l = Ok (fs, r) -> exists s, l = s ++ r /\ run_g s fs) /\
  (forall l ts r, p_terms n l = Ok (ts, r) -> exists s, l = s ++ r /\ terms_g s ts) /\
  (forall l t r, p_term n l = Ok (t, r) -> exists s, l = s ++ r /\ term_g s t).
Proof.
  induction n as [|n (IHf & IHm & IHr & IHts & IHt)].
  { repeat split; discriminate. }
  repeat split.
  - (* formula *)
    intros l fs r H. simpl in H.
    destruct (p_run n l) as [[fs1 r1]|] eqn:E1; [|discriminate].
    destruct (p_more n r1) as [[gs r2]|] eqn:E2; [|discriminate].
    injection H as <- <-.
    destruct (IHr _ _ _ E1) as (s1 & -> & H1). destruct (IHm _ _ _ E2) as (s2 & -> & H2).
    exists (s1 ++ s2). split; [app_eq|]. constructor; assumption.
  - (* more *)
    intros l fs r H. simpl in H.
    destruct (starts_sep l) eqn:Es.
    + destruct (take_while is_sep l) as [p l'] eqn:Ep. simpl in H.
      apply take_while_spec in Ep as (-> & Hp & Hl').
      destruct (p_run n l') as [[fs1 r1]|] eqn:E1; [|discriminate].
      destruct (p_more n r1) as [[gs r2]|] eqn:E2; [|discriminate].
      injection H as <- <-.
      destruct (IHr _ _ _ E1) as (s1 & -> & H1). destruct (IHm _ _ _ E2) as (s2 & -> & H2).
      exists (p ++ s1 ++ s2). split; [app_eq|]. constructor; try assumption.
      intros ->. simpl in Es, Hl'. revert Es Hl'. generalize (s1 ++ s2 ++ r2). intros [|x y]; simpl; congruence.
    + injection H as <- <-. exists []. split; [reflexivity|]. constructor.
  - (* run *)
    intros l fs r H. simpl in H.
    destruct (starts_run l); [|discriminate].
    destruct (p_count l) as [[oc r1]|] eqn:Ec; [|discriminate].
    destruct (starts_term r1); [|discriminate].
    destruct (p_terms n r1) as [[ts r2]|] eqn:E2; [|discriminate].
    injection H as <- <-.
    destruct (p_count_sound _ _ _ Ec) as (c & -> & Hc).
    destruct (IHts _ _ _ E2) as (s2 & -> & H2).
    destruct oc as [d|].
    + exists (c ++ s2). split; [app_eq|]. constructor; assumption.
    + subst c. exists s2. split; [reflexivity|]. constructor. assumption.
  - (* terms *)
    intros l ts r H. simpl in H.
    destruct (p_term n l) as [[t r1]|] eqn:E1; [|discriminate].
    destruct (IHt _ _ _ E1) as (s1 & -> & H1).
    destruct (starts_term r1).
    + destruct (p_terms n r1) as [[ts' r2]|] eqn:E2; [|discriminate].
      injection H as <- <-. destruct (IHts _ _ _ E2) as (s2 & -> & H2).
      exists (s1 ++ s2). split; [app_eq|]. constructor; assumption.
    + injection H as <- <-. exists s1. split; [reflexivity|]. constructor; assumption.
  - (* term *)
    intros l t r H. simpl in H.
    destruct l as [|c l1]; [discriminate|].
    destruct (c =? "(")%char eqn:Ec.
    + apply Ascii.eqb_eq in Ec as ->.
      destruct (p_formula n l1) as [[fs r1]|] eqn:E1; [|discriminate].
      destruct r1 as [|d r2]; [discriminate|].
      destruct (d =? ")")%char eqn:Ed; [|discriminate]. apply Ascii.eqb_eq in Ed as ->.
      destruct (p_count r2) as [[oc r3]|] eqn:E3; [|discriminate].
      injection H as <- <-.
      destruct (IHf _ _ _ E1) as (s1 & -> & H1).
      destruct (p_count_sound _ _ _ E3) as (c & -> & Hc).
      exists ("("%char :: s1 ++ ")"%char :: c). split; [app_eq|].
      constructor; [assumption|]. apply (p_count_opt _ _ Hc).
    + destruct (p_atom (c :: l1)) as [[x r1]|] eqn:E1; [|discriminate].
      destruct (p_count r1) as [[oc r2]|] eqn:E2; [|discriminate].
      injection H as <- <-.
      destruct (p_atom_sound _ _ _ E1) as (s1 & Hl & H1). rewrite Hl.
      destruct (p_count_sound _ _ _ E2) as (c' & -> & Hc).
      exists (s1 ++ c'). split; [app_eq|].
      constructor; [assumption|]. apply (p_count_opt _ _ Hc).
Qed.

(** Character classes. *)
Lemma char_upper c : is_upper c = true ->
  is_digit c = false /\ is_lower c = false /\ is_sep c = false /\
  c <> "["%char /\ c <> "."%char /\ c <> "("%char /\ c <> ")"%char.
Proof. destruct c as [[] [] [] [] [] [] [] []]; intros H; vm_compute in H |- *; try discriminate H; repeat split; discriminate. Qed.

Lemma char_digit c : is_digit c = true ->
  is_upper c = false /\ is_lower c = false /\ is_sep c = false /\
  c <> "["%char /\ c <> "."%char /\ c <> "("%char /\ c <> ")"%char.
Proof. destruct c as [[] [] [] [] [] [] [] []]; intros H; vm_compute in H |- *; try discriminate H; repeat split; discriminate. Qed.

Lemma char_sep c : is_sep c = true ->
  is_upper c = false /\ is_digit c = false /\ is_lower c = false /\
  c <> "["%char /\ c <> "."%char /\ c <> "("%char /\ c <> ")"%char.
Proof. destruct c as [[] [] [] [] [] [] [] []]; intros H; vm_compute in H |- *; try discriminate H; repeat split; discriminate. Qed.

Lemma hd_is_app P s r : hd_is P s -> hd_is P (s ++ r).
Proof. destruct s; simpl; tauto. Qed.

Lemma hd_is_mono (P Q : ascii -> Prop) s : (forall c, P c -> Q c) -> hd_is P s -> hd_is Q s.
Proof. destruct s; simpl; auto. Qed.

Lemma hd_is_length P s : hd_is P s -> 1 <= length s.
Proof. destruct s; simpl; [tauto|lia]. Qed.

Lemma atom_g_first s x : atom_g s x -> hd_is (fun c => is_upper c = true) s.
Proof. intros []; simpl; assumption. Qed.

Lemma term_g_first s t : term_g s t -> hd_is (fun c => is_upper c = true \/ c = "("%char) s.
Proof.
  intros [s0 c x d Ha _|s0 c fs d _ _].
  - apply hd_is_app. apply (hd_is_mono _ _ _ (fun c H => or_introl H) (atom_g_first _ _ Ha)).
  - simpl. auto.
Qed.

Lemma terms_g_first s ts : terms_g s ts -> hd_is (fun c => is_upper c = true \/ c = "("%char) s.
Proof. intros [s0 t Ht|s0 s' t ts' Ht _]; [|apply hd_is_app]; apply (term_g_first _ _ Ht). Qed.

Lemma count_lit_first c d : count_lit c d -> hd_is (fun x => is_digit x = true) c.
Proof.
  intros [ds Hne Hds|ds fs Hne _ Hds _]; [|apply hd_is_app];
    (destruct ds as [|x ds']; [congruence|]); simpl; apply Forall_inv in Hds; exact Hds.
Qed.

Lemma run_g_first s fs :
  run_g s fs -> hd_is (fun c => is_digit c = true \/ is_upper c = true \/ c = "("%char) s.
Proof.
  intros [s0 ts Hts|c s0 d ts Hc _].
  - apply (hd_is_mono _ _ _ (fun c H => or_intror H) (terms_g_first _ _ Hts)).
  - apply hd_is_app. apply (hd_is_mono _ _ _ (fun c H => or_introl H) (count_lit_first _ _ Hc)).
Qed.

Lemma more_g_first s gs : more_g s gs -> s = [] \/ hd_is (fun c => is_sep c = true) s.
Proof.
  intros [|p s0 s' fs gs' Hp Hps _ _]; [auto|right].
  apply hd_is_app. destruct p as [|x p']; [congruence|]. apply Forall_inv in Hps. exact Hps.
Qed.

(** Follow sets. *)
Lemma term_follow_count rest : term_follow rest -> count_follow rest.
Proof.
  destruct rest as [|x r]; simpl; [auto|].
  intros [H|[->|[H| ->]]].
  - destruct (char_sep x H) as (_&?&_&_&?&_). auto.
  - split; [reflexivity|discriminate].
  - destruct (char_upper x H) as (?&_&_&_&?&_). auto.
  - split; [reflexivity|discriminate].
Qed.

Lemma opt_count_atom_follow c d rest :
  opt_count c d -> term_follow rest -> atom_follow (c ++ rest).
Proof.
  intros [|s d' Hs] Hf.
  - destruct rest as [|x r]; simpl in *; [auto|].
    destruct Hf as [H|[->|[H| ->]]].
    + destruct (char_sep x H) as (_&_&?&?&_). auto.
    + split; [reflexivity|discriminate].
    + destruct (char_upper x H) as (_&?&_&?&_). auto.
    + split; [reflexivity|discriminate].
  - pose proof (count_lit_first _ _ Hs) as Hh.
    destruct s as [|x s']; [contradiction|]. simpl in *.
    destruct (char_digit x Hh) as (_&?&_&?&_). auto.
Qed.

Lemma hd_term_starts l : hd_is (fun c => is_upper c = true \/ c = "("%char) l -> starts_term l = true.
Proof.
  destruct l as [|x r]; simpl; [tauto|]. intros [H| ->]; [rewrite H|]; reflexivity.
Qed.

Lemma hd_term_count l : hd_is (fun c => is_upper c = true \/ c = "("%char) l -> count_follow l.
Proof.
  destruct l as [|x r]; simpl; [tauto|]. intros [H| ->].
  - destruct (char_upper x H) as (?&_&_&_&?&_). auto.
  - split; [reflexivity|discriminate].
Qed.

Lemma hd_term_not_digit l :
  hd_is (fun c => is_upper c = true \/ c = "("%char) l ->
  match l with c :: _ => is_digit c = false | [] => True end.
Proof. intros H. pose proof (hd_term_count l H). destruct l; [exact I|apply H0]. Qed.

Lemma hd_run_starts l :
  hd_is (fun c => is_digit c = true \/ is_upper c = true \/ c = "("%char) l -> starts_run l = true.
Proof.
  destruct l as [|x r]; simpl; [tauto|]. intros [H|[H| ->]]; rewrite ?H, ?orb_true_r; reflexivity.
Qed.

Lemma hd_run_not_sep l :
  hd_is (fun c => is_digit c = true \/ is_upper c = true \/ c = "("%char) l ->
  match l with c :: _ => is_sep c = false | [] => True end.
Proof.
  destruct l as [|x r]; simpl; [tauto|]. intros [H|[H| ->]].
  - apply (char_digit x H).
  - apply (char_upper x H).
  - reflexivity.
Qed.

Lemma run_follow_no_term rest : run_follow rest -> starts_term rest = false.
Proof.
  destruct rest as [|x r]; simpl; [auto|]. intros [H| ->]; [|reflexivity].
  destruct (char_sep x H) as (->&_). destruct (char_sep x H) as (_&_&_&_&_&?&_).
  apply Ascii.eqb_neq in H0. rewrite H0. reflexivity.
Qed.

Lemma formula_follow_no_sep rest : formula_follow rest -> starts_sep rest = false.
Proof. destruct rest as [|x r]; simpl; [auto|]. intros ->. reflexivity. Qed.

Lemma formula_follow_run rest : formula_follow rest -> run_follow rest.
Proof. destruct rest as [|x r]; simpl; auto. Qed.

Lemma more_run_follow s gs rest : more_g s gs -> formula_follow rest -> run_follow (s ++ rest).
Proof.
  intros Hm Hf. destruct (more_g_first _ _ Hm) as [->|Hh].
  - apply formula_follow_run, Hf.
  - destruct s as [|x s']; [contradiction|]. simpl in *. auto.
Qed.

Lemma hd_sep_starts l : hd_is (fun c => is_sep c = true) l -> starts_sep l = true.
Proof. destruct l; simpl; tauto. Qed.

(** Completeness: a sentence followed by what may follow it is parsed. *)
Lemma parser_complete :
  (forall s t, term_g s t -> forall n rest, term_follow rest -> 4 * length s + 1 <= n ->
     p_term n (s ++ rest) = Ok (t, rest)) /\
  (forall s ts, terms_g s ts -> forall n rest, run_follow rest -> 4 * length s + 2 <= n ->
     p_terms n (s ++ rest) = Ok (ts, rest)) /\
  (forall s fs, run_g s fs -> forall n rest, run_follow rest -> 4 * length s + 3 <= n ->
     p_run n (s ++ rest) = Ok (fs, rest)) /\
  (forall s gs, more_g s gs -> forall n rest, formula_follow rest -> 4 * length s + 1 <= n ->
     p_more n (s ++ rest) = Ok (gs, rest)) /\
  (forall s fs, formula_g s fs -> forall n rest, formula_follow rest -> 4 * length s + 4 <= n ->
     p_formula n (s ++ rest) = Ok (fs, rest)).
Proof.
  apply grammar_mut.
  - (* atom term *)
    intros s c x d Ha Hc n rest Hf Hn. destruct n as [|n]; [lia|].
    rewrite <- app_assoc.
    pose proof (hd_is_app _ _ (c ++ rest) (atom_g_first _ _ Ha)) as Hh.
    destruct (s ++ c ++ rest) as [|y l1] eqn:El; [contradiction|]. simpl in Hh.
    cbn [p_term]. destruct (char_upper y Hh) as (_&_&_&_&_&Hy&_).
    apply Ascii.eqb_neq in Hy. rewrite Hy. rewrite <- El.
    rewrite (p_atom_complete s x (c ++ rest) Ha (opt_count_atom_follow _ _ _ Hc Hf)).
    destruct (opt_count_complete c d rest Hc (term_follow_count _ Hf)) as (oc & -> & <-).
    reflexivity.
  - (* group term *)
    intros s c fs d Hs IHs Hc n rest Hf Hn. destruct n as [|n]; [lia|].
    simpl (length _) in Hn. rewrite length_app in Hn. simpl in Hn.
    replace (("("%char :: s ++ ")"%char :: c) ++ rest) with ("("%char :: s ++ ")"%char :: c ++ rest)
      by app_eq.
    cbn [p_term]. simpl (("(" =? "(")%char). cbv iota beta.
    rewrite (IHs n (")"%char :: c ++ rest) eq_refl) by lia.
    simpl (("(" =? "(")%char).
    destruct (opt_count_complete c d rest Hc (term_follow_count _ Hf)) as (oc & -> & <-).
    reflexivity.
  - (* one term *)
    intros s t Ht IHt n rest Hf Hn. destruct n as [|n]; [lia|].
    cbn [p_terms]. rewrite (IHt n rest) by (try lia; destruct rest as [|x r]; simpl in *; tauto).
    rewrite (run_follow_no_term _ Hf). reflexivity.
  - (* more terms *)
    intros s s' t ts Ht IHt Hts IHts n rest Hf Hn. destruct n as [|n]; [lia|].
    rewrite length_app in Hn. pose proof (hd_is_length _ _ (term_g_first _ _ Ht)).
    pose proof (hd_is_app _ _ rest (terms_g_first _ _ Hts)) as Hh.
    rewrite <- app_assoc. cbn [p_terms].
    rewrite (IHt n (s' ++ rest)).
    2:{ destruct (s' ++ rest) as [|x r]; simpl in *; tauto. }
    2:{ lia. }
    rewrite (hd_term_starts _ Hh), (IHts n rest Hf) by lia. reflexivity.
  - (* plain run *)
    intros s ts Hts IH n rest Hf Hn. destruct n as [|n]; [lia|].
    pose proof (hd_is_app _ _ rest (terms_g_first _ _ Hts)) as Hh.
    cbn [p_run].
    rewrite (hd_run_starts (s ++ rest)).
    2:{ apply (hd_is_mono _ _ _ (fun c H => or_intror H) Hh). }
    rewrite (p_count_none _ (hd_term_not_digit _ Hh)), (hd_term_starts _ Hh), (IH n rest Hf) by lia.
    reflexivity.
  - (* scaled run *)
    intros c s d ts Hc Hts IH n rest Hf Hn. destruct n as [|n]; [lia|].
    rewrite length_app in Hn.
    pose proof (hd_is_app _ _ rest (terms_g_first _ _ Hts)) as Hh.
    pose proof (hd_is_app _ _ (s ++ rest) (count_lit_first _ _ Hc)) as Hd.
    rewrite <- app_assoc. cbn [p_run].
    rewrite (hd_run_starts (c ++ s ++ rest)).
    2:{ apply (hd_is_mono _ _ _ (fun c H => or_introl H) Hd). }
    rewrite (count_lit_complete c d (s ++ rest) Hc (hd_term_count _ Hh)), (hd_term_starts _ Hh).
    rewrite (IH n rest Hf) by lia. reflexivity.
  - (* no more runs *)
    intros n rest Hf Hn. destruct n as [|n]; [lia|].
    simpl app. cbn [p_more]. rewrite (formula_follow_no_sep _ Hf). reflexivity.
  - (* one more run *)
    intros p s s' fs gs Hp Hps Hs IHs Hm IHm n rest Hf Hn. destruct n as [|n]; [lia|].
    rewrite !length_app in Hn.
    assert (1 <= length p) by (destruct p; [congruence|simpl; lia]).
    pose proof (hd_is_app _ _ (s' ++ rest) (run_g_first _ _ Hs)) as Hh.
    replace ((p ++ s ++ s') ++ rest) with (p ++ (s ++ s' ++ rest)) by app_eq.
    cbn [p_more].
    rewrite hd_sep_starts.
    2:{ destruct p as [|x p']; [congruence|]. simpl. apply Forall_inv in Hps. exact Hps. }
    rewrite (take_while_app is_sep p _ Hps (hd_run_not_sep _ Hh)). simpl snd.
    rewrite (IHs n (s' ++ rest) (more_run_follow _ _ _ Hm Hf)) by lia.
    rewrite (IHm n rest Hf) by lia. reflexivity.
  - (* formula *)
    intros s s' fs gs Hs IHs Hm IHm n rest Hf Hn. destruct n as [|n]; [lia|].
    rewrite length_app in Hn. rewrite <- app_assoc. cbn [p_formula].
    rewrite (IHs n (s' ++ rest) (more_run_follow _ _ _ Hm Hf)) by lia.
    rewrite (IHm n rest Hf) by lia. reflexivity.
Qed.

Lemma term_g_length s t : term_g s t -> 1 <= length s.
Proof. intros H. apply (hd_is_length _ _ (term_g_first _ _ H)). Qed.

(** The fuel of [parse_chars] never runs out. *)
Lemma parser_fuel n :
  (forall l e, 4 * length l + 4 <= n -> p_formula n l = Fail e -> e <> Exhausted) /\
  (forall l e, 4 * length l + 1 <= n -> p_more n l = Fail e -> e <> Exhausted) /\
  (forall l e, 4 * length l + 3 <= n -> p_run n l = Fail e -> e <> Exhausted) /\
  (forall l e, 4 * length l + 2 <= n -> p_terms n l = Fail e -> e <> Exhausted) /\
  (forall l e, 4 * length l + 1 <= n -> p_term n l = Fail e -> e <> Exhausted).
Proof.
  induction n as [|n (IHf & IHm & IHr & IHts & IHt)].
  { repeat split; intros; lia. }
  destruct (parser_sound n) as (Sf & Sm & Sr & Sts & St).
  repeat split.
  - intros l e Hn H. simpl in H.
    destruct (p_run n l) as [[fs1 r1]|e1] eqn:E1.
    2:{ injection H as <-. apply (IHr l); [lia|exact E1]. }
    destruct (Sr _ _ _ E1) as (s1 & -> & _).
    destruct (p_more n r1) as [[gs r2]|e2] eqn:E2; [discriminate|].
    injection H as <-. rewrite length_app in Hn. apply (IHm r1); [lia|exact E2].
  - intros l e Hn H. simpl in H.
    destruct (starts_sep l) eqn:Es; [|discriminate].
    destruct (take_while is_sep l) as [p l'] eqn:Ep. simpl in H.
    apply take_while_spec in Ep as (-> & _ & Hl').
    assert (1 <= length p).
    { destruct p as [|x p']; [|simpl; lia]. simpl in Es, Hl'.
      destruct l' as [|y l'']; simpl in *; congruence. }
    rewrite length_app in Hn.
    destruct (p_run n l') as [[fs1 r1]|e1] eqn:E1.
    2:{ injection H as <-. apply (IHr l'); [lia|exact E1]. }
    destruct (Sr _ _ _ E1) as (s1 & -> & _).
    destruct (p_more n r1) as [[gs r2]|e2] eqn:E2; [discriminate|].
    injection H as <-. rewrite length_app in Hn. apply (IHm r1); [lia|exact E2].
  - intros l e Hn H. simpl in H.
    destruct (starts_run l); [|injection H as <-; discriminate].
    destruct (p_count l) as [[oc r1]|e1] eqn:E1.
    2:{ injection H as <-. rewrite (p_count_fail _ _ E1). discriminate. }
    destruct (p_count_sound _ _ _ E1) as (c & -> & _).
    destruct (starts_term r1); [|injection H as <-; discriminate].
    destruct (p_terms n r1) as [[ts r2]|e2] eqn:E2; [discriminate|].
    injection H as <-. rewrite length_app in Hn. apply (IHts r1); [lia|exact E2].
  - intros l e Hn H. simpl in H.
    destruct (p_term n l) as [[t r1]|e1] eqn:E1.
    2:{ injection H as <-. apply (IHt l); [lia|exact E1]. }
    destruct (St _ _ _ E1) as (s1 & -> & Ht).
    pose proof (term_g_length _ _ Ht).
    destruct (starts_term r1); [|discriminate].
    destruct (p_terms n r1) as [[ts r2]|e2] eqn:E2; [discriminate|].
    injection H as <-. rewrite length_app in Hn. apply (IHts r1); [lia|exact E2].
  - intros l e Hn H. simpl in H.
    destruct l as [|c l1]; [injection H as <-; discriminate|].
    destruct (c =? "(")%char.
    + destruct (p_formula n l1) as [[fs r1]|e1] eqn:E1.
      2:{ injection H as <-. simpl in Hn. apply (IHf l1); [lia|exact E1]. }
      destruct r1 as [|d r2]; [injection H as <-; discriminate|].
      destruct (d =? ")")%char; [|injection H as <-; discriminate].
      destruct (p_count r2) as [[oc r3]|e3] eqn:E3; [discriminate|].
      injection H as <-. rewrite (p_count_fail _ _ E3). discriminate.
    + destruct (p_atom (c :: l1)) as [[x r1]|e1] eqn:E1.
      2:{ injection H as <-. destruct (p_atom_fail _ _ E1) as (sym & [->|[->| ->]]); discriminate. }
      destruct (p_count r1) as [[oc r2]|e2] eqn:E2; [discriminate|].
      injection H as <-. rewrite (p_count_fail _ _ E2). discriminate.
Qed.

Lemma formula_g_nonempty s fs : formula_g s fs -> s <> [].
Proof.
  intros [s1 s2 fs1 gs Hr _]. pose proof (hd_is_length _ _ (run_g_first _ _ Hr)).
  intros E. apply (f_equal (@length _)) in E. rewrite length_app in E. simpl in E. lia.
Qed.

(** The whole input parses exactly when it is a sentence of the grammar. *)
Lemma parse_chars_ok l fs : parse_chars l = Ok fs <-> input_g l fs.
Proof.
  split.
  - unfold parse_chars. destruct l as [|x l'].
    + intros H; injection H as <-. constructor.
    + destruct (p_formula _ (x :: l')) as [[fs' [|c r]]|e] eqn:E; try discriminate.
      intros H; injection H as <-.
      destruct (proj1 (parser_sound _) _ _ _ E) as (s & Hs & Hf).
      rewrite app_nil_r in Hs. rewrite Hs. constructor. exact Hf.
  - intros [|s fs' Hf]; [reflexivity|].
    pose proof (formula_g_nonempty _ _ Hf) as Hne.
    pose proof (proj2 (proj2 (proj2 (proj2 parser_complete))) s fs' Hf (4 * length s + 4) [] I (le_n _))
      as E.
    rewrite app_nil_r in E. unfold parse_chars.
    destruct s as [|x s']; [congruence|]. rewrite E. reflexivity.
Qed.

Lemma parse_chars_fail l e : parse_chars l = Fail e -> e <> Exhausted.
Proof.
  unfold parse_chars. destruct l as [|x l']; [discriminate|].
  destruct (p_formula _ (x :: l')) as [[fs' [|c r]]|e'] eqn:E; try discriminate.
  - intros H; injection H as <-. destruct (c =? ")")%char; discriminate.
  - intros H; injection H as <-. apply (proj1 (parser_fuel _) (x :: l') e' (le_n _) E).
Qed.

(** Rendering. *)
Lemma digit_char k : k < 10 ->
  is_digit (ascii_of_nat (48 + k)) = true /\ digit_val (ascii_of_nat (48 + k)) = N.of_nat k.
Proof. intros Hk. do 10 (destruct k as [|k]; [split; reflexivity|]). lia. Qed.

Lemma digits_value_snoc l c : digits_value (l ++ [c]) = (digits_value l * 10 + digit_val c)%N.
Proof. unfold digits_value. rewrite fold_left_app. reflexivity. Qed.

Lemma digits_rev_S f m :
  digits_rev (S f) m =
  ascii_of_nat (48 + N.to_nat (m mod 10)) :: (if (m <? 10)%N then [] else digits_rev f (m / 10)).
Proof. reflexivity. Qed.

Lemma digits_rev_spec f m :
  (m < 2 ^ N.of_nat f)%N ->
  Forall (fun c => is_digit c = true) (digits_rev (S f) m) /\
  digits_value (rev (digits_rev (S f) m)) = m.
Proof.
  revert m. induction f as [|f IH]; intros m Hm.
  - simpl in Hm. assert (m = 0%N) as -> by lia. split; [repeat constructor|reflexivity].
  - assert (Hlt : (N.to_nat (m mod 10) < 10)%nat).
    { pose proof (N.mod_lt m 10 ltac:(discriminate)). lia. }
    destruct (digit_char _ Hlt) as [Hd Hv]. rewrite N2Nat.id in Hv.
    pose proof (N.div_mod m 10 ltac:(discriminate)) as Hdm.
    rewrite digits_rev_S. destruct (m <? 10)%N eqn:E10.
    + apply N.ltb_lt in E10. split; [repeat constructor; exact Hd|].
      change (rev (?a :: ?l)) with (rev l ++ [a]). rewrite digits_value_snoc.
      rewrite Hv, N.mod_small by exact E10. unfold digits_value; simpl. lia.
    + apply N.ltb_ge in E10.
      assert (Hq : (m / 10 < 2 ^ N.of_nat f)%N).
      { rewrite Nat2N.inj_succ, N.pow_succ_r' in Hm.
        pose proof (N.mod_lt m 10 ltac:(discriminate)). lia. }
      destruct (IH _ Hq) as [Hf Hval]. split; [constructor; assumption|].
      change (rev (?a :: ?l)) with (rev l ++ [a]). rewrite digits_value_snoc, Hval, Hv. lia.
Qed.

Lemma N_digits_spec m :
  N_digits m <> [] /\ Forall (fun c => is_digit c = true) (N_digits m) /\ digits_value (N_digits m) = m.
Proof.
  assert (Hm : (m < 2 ^ N.of_nat (N.to_nat (N.size m)))%N) by (rewrite N2Nat.id; apply N.size_gt).
  destruct (digits_rev_spec _ _ Hm) as [Hf Hv]. unfold N_digits.
  split; [|split; [apply Forall_rev, Hf|exact Hv]].
  cbn [digits_rev]. simpl. intros E. apply (f_equal (@length _)) in E.
  rewrite length_app in E. simpl in E. lia.
Qed.

Lemma digits_value_zeros j l : digits_value (repeat "0"%char j ++ l) = digits_value l.
Proof.
  unfold digits_value. rewrite fold_left_app. f_equal.
  induction j as [|j IH]; [reflexivity|]. simpl. exact IH.
Qed.

Lemma render_decimal_lit d : count_lit (render_decimal d) d.
Proof.
  destruct d as [m e]. destruct (N_digits_spec m) as (Hne & Hds & Hv).
  unfold render_decimal. simpl. destruct e as [|e'].
  - rewrite <- Hv at 2. constructor; assumption.
  - set (ds := N_digits m). set (ds' := repeat "0"%char (S (S e') - length ds) ++ ds).
    set (k := length ds' - S e').
    assert (Hlen : S (S e') <= length ds') by (unfold ds'; rewrite length_app, repeat_length; lia).
    assert (Hds' : Forall (fun c => is_digit c = true) ds').
    { apply Forall_app. split; [apply Forall_forall; intros x Hx; apply list_elem_of_In, repeat_spec in Hx as ->; reflexivity|exact Hds]. }
    assert (Hdrop : length (drop k ds') = S e') by (rewrite length_drop; unfold k; lia).
    assert (Hval : digits_value (take k ds' ++ drop k ds') = m).
    { rewrite take_drop. unfold ds'. rewrite digits_value_zeros. exact Hv. }
    rewrite <- Hval. rewrite <- Hdrop.
    constructor.
    + intros E. apply (f_equal (@length _)) in E. rewrite length_take in E. simpl in E. unfold k in E. lia.
    + intros E. rewrite E in Hdrop. discriminate.
    + apply Forall_take, Hds'.
    + apply Forall_drop, Hds'.
Qed.

Lemma render_count_opt d : opt_count (render_count d) d.
Proof.
  unfold render_count. destruct (decide (d = dec_one)) as [->|_]; [constructor|].
  constructor. apply render_decimal_lit.
Qed.

(** The symbols of the catalog are distinct: looking an element's symbol up
    finds that element. *)
Lemma catalog_symbols :
  Forall (fun el => find_symbol (list_ascii_of_string (symbol el)) = Some el) catalog.
Proof.
  unfold catalog.
  repeat (apply Forall_cons_2; [vm_compute; reflexivity|]).
  apply Forall_nil_2.
Qed.

Lemma symbol_readable_spec s :
  symbol_readable s = true ->
  exists c lows, list_ascii_of_string s = c :: lows /\ is_upper c = true /\
                 Forall (fun x => is_lower x = true) lows.
Proof.
  unfold symbol_readable. destruct (list_ascii_of_string s) as [|c lows]; [discriminate|].
  intros H. apply andb_true_iff in H as [Hc Hl]. exists c, lows.
  split; [reflexivity|]. split; [exact Hc|]. apply Forall_forall. intros x Hx.
  apply (proj1 (forallb_forall _ _) Hl x), list_elem_of_In, Hx.
Qed.

Lemma find_number_some z el : find_number z = Some el -> el ∈ catalog /\ number el = z.
Proof.
  unfold find_number. intros H. apply find_some in H as [Hin Hz].
  split; [apply list_elem_of_In, Hin|apply Nat.eqb_eq, Hz].
Qed.

Lemma render_atom_g x : atom_valid x = true -> atom_g (render_atom x) x.
Proof.
  destruct x as [z|z a]; simpl.
  - destruct (find_number z) as [el|] eqn:E; [|discriminate]. intros Hv.
    destruct (find_number_some _ _ E) as [Hin <-].
    pose proof (proj1 (Forall_forall _ _) catalog_symbols el Hin) as Hf. simpl in Hf.
    destruct (symbol_readable_spec _ Hv) as (c & lows & Hs & Hu & Hl).
    rewrite Hs in Hf |- *. constructor; assumption.
  - destruct (find_number z) as [el|] eqn:E; [|discriminate]. intros Hv.
    apply andb_true_iff in Hv as [Hr Hv].
    destruct (find_number_some _ _ E) as [Hin <-].
    pose proof (proj1 (Forall_forall _ _) catalog_symbols el Hin) as Hf. simpl in Hf.
    destruct (N_digits_spec a) as (Hne & Hds & Hval).
    destruct (symbol_readable_spec _ Hr) as (c & lows & Hs & Hu & Hl).
    rewrite Hs in Hf |- *.
    rewrite <- Hval at 2. rewrite <- Hval in Hv. simpl. constructor; assumption.
Qed.

Lemma render_frags_cons c t fs :
  render_frags ((c, t) :: fs) = render_target t ++ render_count c ++ render_frags fs.
Proof. reflexivity. Qed.

Lemma render_target_sub fs : render_target (TSub fs) = "("%char :: render_frags fs ++ [")"%char].
Proof. reflexivity. Qed.

Lemma render_terms_g fs :
  fs <> [] -> Forall (fun p => forall c, term_g (render_target (snd p) ++ render_count c) (c, snd p)) fs ->
  terms_g (render_frags fs) fs.
Proof.
  induction fs as [|[c t] fs IH]; [congruence|]. intros _ Hall.
  apply Forall_cons in Hall as [Ht Hall]. simpl in Ht.
  rewrite render_frags_cons, app_assoc. destruct fs as [|p fs'].
  - rewrite app_nil_r. constructor. apply Ht.
  - constructor; [apply Ht|]. apply IH; [discriminate|exact Hall].
Qed.

Lemma render_term_g t : wf_target t = true -> forall c, term_g (render_target t ++ render_count c) (c, t).
Proof.
  induction t as [x|fs IH] using target_ind'; intros Hwf c.
  - constructor; [apply render_atom_g, Hwf|apply render_count_opt].
  - rewrite render_target_sub.
    replace (("("%char :: render_frags fs ++ [")"%char]) ++ render_count c)
      with ("("%char :: render_frags fs ++ ")"%char :: render_count c) by app_eq.
    constructor; [|apply render_count_opt].
    assert (Hne : fs <> []) by (destruct fs; [discriminate|congruence]).
    assert (Hall : Forall (fun p => wf_target (snd p) = true) fs).
    { destruct fs as [|p fs']; [congruence|]. apply Forall_forall. intros q Hq.
      change (forallb (fun p => wf_target (snd p)) (p :: fs') = true) in Hwf.
      apply (proj1 (forallb_forall _ _) Hwf q), list_elem_of_In, Hq. }
    assert (Hts : terms_g (render_frags fs) fs).
    { apply render_terms_g; [exact Hne|].
      apply Forall_forall. intros p Hp. apply (proj1 (Forall_forall _ _) IH p Hp).
      apply (proj1 (Forall_forall _ _) Hall p Hp). }
    pose proof (FormulaRuns _ _ _ _ (RunPlain _ _ Hts) MoreNil) as Hf.
    rewrite !app_nil_r in Hf. exact Hf.
Qed.

Lemma render_input fs :
  forallb (fun p => wf_target (snd p)) fs = true -> input_g (render_frags fs) fs.
Proof.
  intros Hwf. destruct fs as [|p fs']; [constructor|].
  assert (Hts : terms_g (render_frags (p :: fs')) (p :: fs')).
  { apply render_terms_g; [discriminate|].
    apply Forall_forall. intros q Hq. apply render_term_g.
    apply (proj1 (forallb_forall _ _) Hwf q), list_elem_of_In, Hq. }
  pose proof (FormulaRuns _ _ _ _ (RunPlain _ _ Hts) MoreNil) as Hf.
  rewrite !app_nil_r in Hf. constructor. exact Hf.
Qed.

Lemma parse_input s fs :
  parse s = Ok (MkFormula fs None None) <-> input_g (list_ascii_of_string s) fs.
Proof.
  rewrite <- parse_chars_ok. unfold parse.
  destruct (parse_chars (list_ascii_of_string s)) as [fs'|e].
  - split; intros H; injection H as ->; reflexivity.
  - split; discriminate.
Qed.

(* ------------------------------------------------------------------ *)
(** ** Reads after the import in closed form *)

Section RegistryReads.
Import Registry.

Lemma registrations_shape x : x ∈ registrations -> x = (installs (snd x), snd x) /\ snd x ∈ [LCovalentRadius; LCrystalStructure; LNeutron; LXray].
Proof.
  unfold registrations. intros Hx. repeat (apply elem_of_cons in Hx as [->|Hx]; [split; [reflexivity|set_solver]|]).
  by apply elem_of_nil in Hx.
Qed.

Lemma installs_disjoint a l l' : a ∈ installs l -> a ∈ installs l' -> l = l'.
Proof. destruct l, l'; simpl; set_solver. Qed.

Lemma installs_inj l l' : installs l = installs l' -> l = l'.
Proof. destruct l, l'; simpl; congruence. Qed.

Lemma find_unique {A} (P : A -> bool) (xs : list A) x :
  x ∈ xs -> P x = true -> (forall y, y ∈ xs -> P y = true -> y = x) -> find P xs = Some x.
Proof.
  induction xs as [|y xs IH]; intros Hx Hp Hu; [by apply elem_of_nil in Hx|]. simpl.
  destruct (P y) eqn:Ey.
  - f_equal. apply Hu; [left|exact Ey].
  - apply elem_of_cons in Hx as [->|Hx]; [congruence|].
    apply IH; [exact Hx|exact Hp|]. intros z Hz. apply Hu. by right.
Qed.

Lemma find_none {A} (P : A -> bool) (xs : list A) :
  (forall y, y ∈ xs -> P y = false) -> find P xs = None.
Proof.
  induction xs as [|y xs IH]; intros H; [reflexivity|]. simpl.
  rewrite (H y) by left. apply IH. intros z Hz. apply H. by right.
Qed.

Lemma owner_spec a l : owner a = Some l <-> a ∈ installs l /\ l ∈ [LCovalentRadius; LCrystalStructure; LNeutron; LXray].
Proof.
  unfold owner. split.
  - destruct (find _ registrations) as [[ns l']|] eqn:E; [|discriminate]. simpl. intros [= <-].
    apply find_some in E as [Hin Hp]. apply bool_decide_eq_true in Hp.
    apply list_elem_of_In, registrations_shape in Hin as [Hs Hl]. simpl in Hs, Hl.
    injection Hs as ->. auto.
  - intros [Ha Hl]. rewrite (find_unique _ _ (installs l, l)); [reflexivity| | |].
    + unfold registrations. repeat (apply elem_of_cons in Hl as [->|Hl]; [set_solver|]). by apply elem_of_nil in Hl.
    + by apply bool_decide_eq_true.
    + intros [ns l'] Hy Hp. apply bool_decide_eq_true in Hp.
      apply registrations_shape in Hy as [Hs _]. simpl in Hs. injection Hs as ->.
      assert (l' = l) as -> by (apply (installs_disjoint a); assumption). reflexivity.
Qed.

Lemma owner_none a : owner a = None <-> a ∉ ["covalent_radius"; "crystal_structure"; "neutron"; "xray"; "K_alpha"; "K_beta1"].
Proof.
  split.
  - intros Hn Ha. assert (exists l, owner a = Some l) as [l Hl] by
      (repeat (apply elem_of_cons in Ha as [->|Ha]; [eexists; reflexivity|]); by apply elem_of_nil in Ha).
    congruence.
  - intros Ha. destruct (owner a) as [l|] eqn:E; [|reflexivity]. exfalso. apply Ha.
    apply owner_spec in E as [H1 H2].
    repeat (apply elem_of_cons in H2 as [->|H2]; [simpl in H1; set_solver|]). by apply elem_of_nil in H2.
Qed.

Lemma installed_after ls a :
  a ∈ installed (after_loaders ls) <-> a ∈ ["density"; "mass"] \/ exists l, l ∈ ls /\ a ∈ installs l.
Proof.
  unfold after_loaders; simpl. generalize (["density"; "mass"]). induction ls as [|l ls IH] using rev_ind; intros init.
  - simpl. split; [auto|]. intros [H|(l & Hl & _)]; [exact H|by apply elem_of_nil in Hl].
  - rewrite fold_left_app. simpl. rewrite elem_of_app, IH. split.
    + intros [H|[H|(l' & Hl' & H)]]; [right; exists l; split; [set_solver|exact H]|auto|].
      right. exists l'. split; [set_solver|exact H].
    + intros [H|(l' & Hl' & H)]; [auto|]. apply elem_of_app in Hl' as [Hl'|Hl'].
      * right. right. eauto.
      * apply list_elem_of_singleton in Hl' as ->. auto.
Qed.

Lemma filter_ext_in {A} (P Q : A -> Prop) `{!∀ x, Decision (P x)} `{!∀ x, Decision (Q x)} (xs : list A) :
  (forall x, x ∈ xs -> P x <-> Q x) -> filter P xs = filter Q xs.
Proof.
  induction xs as [|x xs IH]; intros Hext; [reflexivity|]. rewrite !filter_cons.
  rewrite IH by (intros y Hy; apply Hext; by right).
  destruct (decide (P x)) as [Hp|Hp], (decide (Q x)) as [Hq|Hq]; try reflexivity;
    exfalso; [apply Hq|apply Hp]; apply (Hext x); [left|assumption|left|assumption].
Qed.

Lemma known_names_spec a :
  a ∈ known_names <->
  a ∈ ["density"; "mass"] \/ a ∈ ["K_alpha_units"; "K_beta1_units"] \/ owner a <> None.
Proof.
  assert (Ho : owner a <> None <->
               a ∈ ["covalent_radius"; "crystal_structure"; "neutron"; "xray"; "K_alpha"; "K_beta1"]).
  { rewrite owner_none. destruct (decide (a ∈ ["covalent_radius"; "crystal_structure"; "neutron"; "xray"; "K_alpha"; "K_beta1"])); tauto. }
  rewrite Ho. unfold known_names. set_solver.
Qed.

Lemma class_attr_names ls :
  map fst (class_attrs (after_loaders ls)) = ["K_beta1_units"; "K_alpha_units"].
Proof. reflexivity. Qed.

Lemma installs_known a l : a ∈ installs l -> a ∈ known_names.
Proof. destruct l; unfold known_names; simpl; set_solver. Qed.

Lemma access_after ls a :
  access a (after_loaders ls) = (after_loaders (next_loaders ls a), bool_decide (a ∈ known_names)).
Proof.
  unfold access. case_bool_decide as Hi.
  - pose proof Hi as Hi'. apply installed_after in Hi'.
    assert (Hk : a ∈ known_names).
    { destruct Hi' as [Hm|(l' & _ & Ha)]; [unfold known_names; set_solver|exact (installs_known _ _ Ha)]. }
    rewrite (bool_decide_eq_true_2 _ Hk). f_equal.
    unfold next_loaders. destruct (owner a) as [l|] eqn:E; [|reflexivity].
    apply owner_spec in E as [Ha Hl].
    destruct Hi' as [Hm|(l' & Hl' & Ha')].
    + exfalso. repeat (apply elem_of_cons in Hl as [->|Hl]; [simpl in Ha; set_solver|]).
      by apply elem_of_nil in Hl.
    + rewrite (installs_disjoint _ _ _ Ha Ha'), bool_decide_eq_true_2 by exact Hl'. reflexivity.
  - rewrite class_attr_names. case_bool_decide as Hca.
    { assert (Hk : a ∈ known_names) by (apply known_names_spec; right; left; set_solver).
      rewrite (bool_decide_eq_true_2 _ Hk).
      assert (E : owner a = None) by (apply owner_none; set_solver).
      unfold next_loaders. rewrite E. reflexivity. }
    unfold next_loaders. destruct (owner a) as [l|] eqn:E.
    + pose proof E as E'. apply owner_spec in E' as [Ha Hl].
      assert (Hnl : l ∉ ls).
      { intros Hin. apply Hi, installed_after. right. eauto. }
      rewrite (bool_decide_eq_false_2 _ Hnl).
      unfold after_loaders at 1. simpl.
      rewrite (find_unique _ _ (installs l, l)).
      2:{ apply list_elem_of_filter. split; [exact Hnl|].
          unfold registrations. repeat (apply elem_of_cons in Hl as [->|Hl]; [set_solver|]).
          by apply elem_of_nil in Hl. }
      2:{ by apply bool_decide_eq_true. }
      2:{ intros [ns l'] Hy Hp. apply bool_decide_eq_true in Hp.
          apply list_elem_of_filter in Hy as [_ Hy].
          apply registrations_shape in Hy as [Hs _]. simpl in Hs. injection Hs as ->.
          assert (l' = l) as -> by (apply (installs_disjoint a); assumption). reflexivity. }
      assert (Hk : a ∈ known_names) by exact (installs_known _ _ Ha).
      rewrite (bool_decide_eq_true_2 _ Hk).
      unfold run_loader, after_loaders. simpl.
      rewrite bool_decide_eq_true_2 by (apply elem_of_app; left; exact Ha).
      f_equal. f_equal.
      * rewrite fold_left_app. reflexivity.
      * rewrite list_filter_filter. apply filter_ext_in.
        intros [ns l'] Hx. apply registrations_shape in Hx as [Hs _]. simpl in Hs. injection Hs as ->.
        rewrite not_elem_of_app, not_elem_of_cons. split.
        -- intros [H1 H2]. split; [exact H2|]. split; [|apply not_elem_of_nil].
           intros ->. apply H1. reflexivity.
        -- intros [H1 [H2 _]]. split; [|exact H1]. intros Heq. apply H2, installs_inj, Heq.
    + unfold after_loaders at 1. simpl. rewrite find_none.
      2:{ intros [ns l'] Hy. apply list_elem_of_filter in Hy as [_ Hy].
          apply bool_decide_eq_false. intros Ha.
          apply registrations_shape in Hy as [Hs Hl]. simpl in Hs, Hl. injection Hs as ->.
          assert (owner a = Some l') by (apply owner_spec; auto). congruence. }
      rewrite bool_decide_eq_false_2; [reflexivity|].
      rewrite known_names_spec. intros [Hm|[Hu|Ho]]; [|set_solver|exact (Ho E)].
      apply Hi, installed_after. left. exact Hm.
Qed.

Lemma run_accesses_after attrs ls :
  run_accesses attrs (after_loaders ls) = after_loaders (fold_left next_loaders attrs ls).
Proof.
  revert ls. induction attrs as [|a attrs IH]; intros ls; [reflexivity|].
  unfold run_accesses. simpl. rewrite access_after. simpl. apply IH.
Qed.

Lemma import_after : import_periodictable = after_loaders [].
Proof. reflexivity. Qed.

Lemma fold_next_loaders_elem attrs ls l :
  l ∈ fold_left next_loaders attrs ls <-> l ∈ ls \/ exists a, a ∈ attrs /\ owner a = Some l.
Proof.
  revert ls. induction attrs as [|a attrs IH]; intros ls; simpl.
  - split; [auto|]. intros [H|(a & Ha & _)]; [exact H|by apply elem_of_nil in Ha].
  - rewrite IH. unfold next_loaders. split.
    + intros [H|(b & Hb & Hob)]; [|right; exists b; split; [by right|exact Hob]].
      destruct (owner a) as [l'|] eqn:E; [|auto].
      case_bool_decide; [auto|]. apply elem_of_app in H as [H|H]; [auto|].
      apply list_elem_of_singleton in H as ->. right. exists a. split; [left|exact E].
    + intros [H|(b & Hb & Hob)].
      * left. destruct (owner a); [case_bool_decide; set_solver|exact H].
      * apply elem_of_cons in Hb as [->|Hb]; [|right; eauto].
        left. rewrite Hob. case_bool_decide; set_solver.
Qed.

Lemma fold_next_loaders_nodup attrs ls : NoDup ls -> NoDup (fold_left next_loaders attrs ls).
Proof.
  revert ls. induction attrs as [|a attrs IH]; intros ls Hls; simpl; [exact Hls|].
  apply IH. unfold next_loaders. destruct (owner a); [|exact Hls].
  case_bool_decide as Hl; [exact Hls|]. apply NoDup_app. split; [exact Hls|].
  split; [|apply NoDup_singleton]. intros x Hx Hx'. apply list_elem_of_singleton in Hx' as ->. contradiction.
Qed.

Lemma next_loaders_read ls a :
  (forall l, owner a = Some l -> l ∈ ls) -> next_loaders ls a = ls.
Proof.
  intros H. unfold next_loaders. destruct (owner a) as [l|] eqn:E; [|reflexivity].
  rewrite bool_decide_eq_true_2; [reflexivity|]. apply H. reflexivity.
Qed.
End RegistryReads.

(* ------------------------------------------------------------------ *)
(** ** Composing sentences *)

Lemma list_ascii_of_string_append (s t : string) :
  list_ascii_of_string (s ++ t)%string = list_ascii_of_string s ++ list_ascii_of_string t.
Proof. induction s as [|c s IH]; simpl; [reflexivity|]. rewrite IH. reflexivity. Qed.

Lemma list_ascii_of_string_nil (s : string) : list_ascii_of_string s = [] -> s = ""%string.
Proof. destruct s; [reflexivity|discriminate]. Qed.

(** A successful parse of a non-empty string is a formula sentence, with no
    density and no name. *)
Lemma parse_ok_inv s A :
  parse s = Ok A -> s <> ""%string ->
  A = MkFormula (structure A) None None /\ formula_g (list_ascii_of_string s) (structure A).
Proof.
  intros H Hne. unfold parse in H.
  destruct (parse_chars (list_ascii_of_string s)) as [fs|e] eqn:E; [|discriminate].
  injection H as <-. split; [reflexivity|]. simpl.
  apply parse_chars_ok in E. inversion E as [Hl|s' fs' Hf]; [|exact Hf].
  symmetry in Hl. apply list_ascii_of_string_nil in Hl. congruence.
Qed.

Lemma parse_of_formula_g s fs :
  formula_g (list_ascii_of_string s) fs -> parse s = Ok (MkFormula fs None None).
Proof. intros H. apply parse_input. constructor. exact H. Qed.

Lemma more_g_app a b xs ys : more_g a xs -> more_g b ys -> more_g (a ++ b) (xs ++ ys).
Proof.
  intros Ha Hb. induction Ha as [|p s s' fs gs Hp Hps Hs Hm IH]; [exact Hb|].
  rewrite <- !app_assoc. constructor; assumption.
Qed.

Lemma formula_g_concat s t p fs gs :
  formula_g s fs -> formula_g t gs -> p <> [] -> Forall (fun c => is_sep c = true) p ->
  formula_g (s ++ p ++ t) (fs ++ gs).
Proof.
  intros [s1 m1 fs1 gs1 Hr1 Hm1] [s2 m2 fs2 gs2 Hr2 Hm2] Hp Hps.
  rewrite <- !app_assoc. constructor; [exact Hr1|].
  apply more_g_app; [exact Hm1|]. constructor; assumption.
Qed.

Lemma parse_concat_ok (s t p : string) (A B : Formula) :
  parse s = Ok A -> parse t = Ok B -> s <> ""%string -> t <> ""%string -> p <> ""%string ->
  Forall (fun c => is_sep c = true) (list_ascii_of_string p) ->
  parse (s ++ p ++ t) = Ok (add A B).
Proof.
  intros HA HB Hs Ht Hp Hps.
  destruct (parse_ok_inv _ _ HA Hs) as [EA FA].
  destruct (parse_ok_inv _ _ HB Ht) as [EB FB].
  rewrite EA, EB. unfold add; simpl. apply parse_of_formula_g.
  rewrite !list_ascii_of_string_append. apply formula_g_concat; [exact FA|exact FB| |exact Hps].
  destruct p; [congruence|discriminate].
Qed.

Lemma formula_g_single_run s fs : run_g s fs -> formula_g s fs.
Proof.
  intros Hr. pose proof (FormulaRuns _ _ _ _ Hr MoreNil) as Hf. rewrite !app_nil_r in Hf. exact Hf.
Qed.

Lemma more_g_no_sep s gs :
  more_g s gs -> Forall (fun ch => is_sep ch = false) s -> s = [] /\ gs = [].
Proof.
  intros Hm Hs. inversion Hm as [|p s1 s2 fs1 gs1 Hp Hps _ _ Es Eg]; [auto|].
  exfalso. subst s. destruct p as [|x p']; [congruence|].
  apply Forall_inv in Hps. simpl in Hs. apply Forall_inv in Hs. congruence.
Qed.

(* ------------------------------------------------------------------ *)
(** ** Weighted sums over compositions *)

Section Weighted.
Local Open Scope Q_scope.
Variable w : atom -> Q.

Lemma weighted_perm (l l' : list (atom * Qc)) :
  l ≡ₚ l' ->
  fold_right Qplus 0 (map (fun '(x, c) => this c * w x) l) ==
  fold_right Qplus 0 (map (fun '(x, c) => this c * w x) l').
Proof.
  induction 1 as [|[x c] l l' _ IH|[x c] [y d] l|l l' l'' _ IH1 _ IH2]; simpl.
  - reflexivity.
  - rewrite IH. reflexivity.
  - ring.
  - rewrite IH1. exact IH2.
Qed.

Lemma weighted_empty : weighted w ∅ == 0.
Proof. unfold weighted. rewrite map_to_list_empty. reflexivity. Qed.

Lemma weighted_insert (m : composition) i c :
  m !! i = None -> weighted w (<[i:=c]> m) == this c * w i + weighted w m.
Proof.
  intros Hi. unfold weighted. rewrite (weighted_perm _ _ (map_to_list_insert m i c Hi)).
  reflexivity.
Qed.

Lemma this_Qcplus (x y : Qc) : this (x + y)%Qc == this x + this y.
Proof. unfold Qcplus. simpl. apply Qred_correct. Qed.

Lemma weighted_merge (m1 m2 : composition) :
  weighted w (merge m1 m2) == weighted w m1 + weighted w m2.
Proof.
  revert m2. induction m1 as [|i x m Hi IH] using map_ind; intros m2.
  - rewrite merge_empty_l, weighted_empty. ring.
  - unfold merge. destruct (m2 !! i) as [y|] eqn:Hy.
    + rewrite <- (insert_delete_id m2 i y Hy).
      rewrite <- (insert_union_with _ _ _ _ x y (x + y)%Qc) by reflexivity.
      rewrite weighted_insert.
      * rewrite !weighted_insert by (done || apply lookup_delete_eq).
        fold (merge m (delete i m2)). rewrite IH, this_Qcplus. ring.
      * rewrite lookup_union_with, Hi, lookup_delete_eq. reflexivity.
    + rewrite <- insert_union_with_l by exact Hy.
      rewrite weighted_insert.
      * rewrite weighted_insert by exact Hi. fold (merge m m2). rewrite IH. ring.
      * rewrite lookup_union_with, Hi, Hy. reflexivity.
Qed.

Lemma weighted_scale (k : Qc) (m : composition) :
  weighted w (scale_comp k m) == this k * weighted w m.
Proof.
  unfold weighted, scale_comp. rewrite map_to_list_fmap.
  induction (map_to_list m) as [|[x c] l IH]; simpl; [ring|].
  rewrite IH. unfold Qcmult; simpl. rewrite Qred_correct. ring.
Qed.
End Weighted.

Section TotalMass.
Local Open Scope Q_scope.
Variable mass_of : atom -> option Q.

Lemma total_mass_None_iff (F : Formula) :
  total_mass mass_of F = None <-> exists x c, flatten F !! x = Some c /\ mass_of x = None.
Proof.
  unfold total_mass. rewrite mass_sum_None.
  split; intros (x & c & Hin & Hm); exists x, c; (split; [|done]); by apply elem_of_map_to_list.
Qed.

Lemma total_mass_Some_eq (F : Formula) s :
  total_mass mass_of F = Some s -> s == weighted (fun x => default 0 (mass_of x)) (flatten F).
Proof. intros H. unfold total_mass in H. rewrite (mass_sum_Some _ _ _ _ H). unfold weighted. ring. Qed.
End TotalMass.

(** Settles a decidable equation by evaluating both sides. *)
Ltac by_computation :=
  match goal with |- ?P => apply (bool_decide_eq_true_1 P); vm_compute; reflexivity end.

(* ================================================================== *)
(** * Claims *)

(** C1: flattening is a homomorphism from the Formula arithmetic to
    compositions: the flattening of [A + B] is the key-wise sum of the
    flattenings, the flattening of [k * A] is the flattening of [A] with every
    count multiplied by [k] (for both forms of scalar multiplication the spec
    allows), and [flatten(parse("3H2O"))] is [{H: 6, O: 3}]. *)
Theorem flatten_homomorphism :
  (forall A B : Formula, flatten (add A B) = merge (flatten A) (flatten B)) /\
  (forall (k : decimal) (A : Formula),
      flatten (scale k A) = scale_comp (dec_Qc k) (flatten A) /\
      flatten (scale_top k A) = scale_comp (dec_Qc k) (flatten A)) /\
  parse_flatten "3H2O" = Some {[Elem 1 := Q2Qc 6; Elem 8 := Q2Qc 3]}.
Proof.
  split; [|split].
  - intros A B. unfold flatten, add; simpl. apply flatten_frags_app.
  - intros k A. split.
    + unfold flatten, scale; simpl.
      rewrite flatten_frags_cons, flatten_frags_nil, merge_empty_r. reflexivity.
    + unfold flatten, scale_top; simpl. apply flatten_frags_scale_top.
  - by_computation.
Qed.

(** C2 (counterexample): right after the import, before any attribute has
    been read, the [mass] and [density] groups are already installed, so not
    every listed group is added only on first access. *)
Lemma lazy_groups_counterexample :
  ~ (forall g, g ∈ all_groups -> g ∉ Registry.installed Registry.import_periodictable).
Proof.
  intros H. apply (H "mass"); [set_solver|]. vm_compute. set_solver.
Qed.

(** C2 (amended): [mass] and [density] are initialised eagerly at import; the
    groups [neutron], [xray], [K_alpha], [K_beta1], [covalent_radius] and
    [crystal_structure] are absent after the import and present after their
    first access; every group is available whenever it is read, after any
    sequence of earlier reads; and along any sequence of reads no
    initialisation call is ever run twice. *)
Theorem lazy_groups_once :
  "mass" ∈ Registry.installed Registry.import_periodictable /\
  "density" ∈ Registry.installed Registry.import_periodictable /\
  Registry.log Registry.import_periodictable = [Registry.LMass; Registry.LDensity] /\
  (forall g, g ∈ lazy_groups -> g ∉ Registry.installed Registry.import_periodictable) /\
  (forall (attrs : list string) (g : string), g ∈ all_groups ->
      snd (Registry.access g (Registry.run_accesses attrs Registry.import_periodictable)) = true /\
      g ∈ Registry.installed
            (fst (Registry.access g (Registry.run_accesses attrs Registry.import_periodictable)))) /\
  (forall attrs : list string,
      NoDup (Registry.log (Registry.run_accesses attrs Registry.import_periodictable))).
Proof.
  split; [vm_compute; set_solver|].
  split; [vm_compute; set_solver|].
  split; [reflexivity|].
  split.
  - intros g Hg. vm_compute. unfold lazy_groups in Hg.
    apply list_elem_of_In in Hg. simpl in Hg.
    repeat destruct Hg as [Hg|Hg]; try contradiction; subst g; set_solver.
  - split.
    + intros attrs g Hg. by apply run_accesses_access.
    + apply run_accesses_once.
Qed.

Lemma lazy_groups_once_witness :
  snd (Registry.access "K_alpha" (Registry.run_accesses ["neutron"] Registry.import_periodictable)) = true.
Proof.
  apply (proj1 (proj1 (proj2 (proj2 (proj2 (proj2 lazy_groups_once)))) ["neutron"] "K_alpha" ltac:(vm_compute; set_solver))).
Defined.

(** C3 (counterexample): [2 * Formula()], a Formula whose single fragment
    is an empty nested formula, renders as [()2]; the grammar has no empty
    group, so the rendering does not parse and the round trip has no
    composition to compare with [flatten(F)] (the empty composition).  The
    neutron, the catalog atom [n], renders as [n], which the grammar does not
    read either (a symbol starts with an upper-case letter). *)
Lemma render_round_trip_counterexample :
  render (scale (Dec 2 0) empty_formula) = "()2"%string /\
  parse (render (scale (Dec 2 0) empty_formula)) = Fail (Trailing [")"%char; "2"%char]) /\
  flatten (scale (Dec 2 0) empty_formula) = ∅ /\
  is_Some (find_number 0) /\
  render (MkFormula [(dec_one, TAtom (Elem 0))] None None) = "n"%string /\
  parse (render (MkFormula [(dec_one, TAtom (Elem 0))] None None)) = Fail (Trailing ["n"%char]) /\
  ~ (forall F : Formula, parse_flatten (render F) = Some (flatten F)).
Proof.
  split; [reflexivity|]. split; [reflexivity|]. split; [by_computation|].
  split; [eexists; reflexivity|]. split; [reflexivity|]. split; [reflexivity|].
  intros H. specialize (H (scale (Dec 2 0) empty_formula)). discriminate H.
Qed.

(** C3 (amended): for every Formula whose atoms are catalog entries with a
    symbol the grammar reads (an upper-case letter followed by lower-case
    letters: every element but the neutron [n]) and whose nested
    sub-formulas are not empty, parsing the canonical rendering gives back
    the same fragment tree (with no density and no name), hence a Formula
    with the same flattened composition. *)
Theorem render_round_trip (F : Formula) (Hwf : wf_formula F = true) :
  parse (render F) = Ok (MkFormula (structure F) None None) /\
  parse_flatten (render F) = Some (flatten F).
Proof.
  assert (Hp : parse (render F) = Ok (MkFormula (structure F) None None)).
  { apply parse_input. unfold render. rewrite list_ascii_of_string_of_list_ascii.
    apply render_input, Hwf. }
  split; [exact Hp|]. unfold parse_flatten. rewrite Hp. reflexivity.
Qed.

Lemma render_round_trip_witness :
  wf_formula (MkFormula [(Dec 5 1, TAtom (Elem 1));
                         (Dec 123 4, TSub [(Dec 2 0, TAtom (Iso 8 18)); (dec_one, TAtom (Elem 20))]);
                         (Dec 120 1, TAtom (Elem 7))] (Some 1%Q) (Some "mix")) = true /\
  parse_flatten (render (MkFormula [(Dec 5 1, TAtom (Elem 1));
                         (Dec 123 4, TSub [(Dec 2 0, TAtom (Iso 8 18)); (dec_one, TAtom (Elem 20))]);
                         (Dec 120 1, TAtom (Elem 7))] (Some 1%Q) (Some "mix"))) =
  Some (flatten (MkFormula [(Dec 5 1, TAtom (Elem 1));
                         (Dec 123 4, TSub [(Dec 2 0, TAtom (Iso 8 18)); (dec_one, TAtom (Elem 20))]);
                         (Dec 120 1, TAtom (Elem 7))] (Some 1%Q) (Some "mix"))).
Proof.
  split; [vm_compute; reflexivity|].
  apply (proj2 (render_round_trip (MkFormula [(Dec 5 1, TAtom (Elem 1));
                         (Dec 123 4, TSub [(Dec 2 0, TAtom (Iso 8 18)); (dec_one, TAtom (Elem 20))]);
                         (Dec 120 1, TAtom (Elem 7))] (Some 1%Q) (Some "mix")) ltac:(vm_compute; reflexivity))).
Defined.

(** C4: parsing fails, with an error value returned to the caller rather
    than a recovered result, exactly when the input is not a sentence of the
    grammar: a sentence has only catalog symbols, valid isotope mass
    numbers, balanced parentheses and well-formed count literals, and is
    consumed to its end. A successful parse returns exactly the fragments
    the sentence denotes; the error is an unknown symbol, an invalid
    isotope, an unbalanced parenthesis, a malformed count or unconsumed
    characters; [Xx2] and [(CaCO3] both fail. *)
Theorem parse_error_conditions :
  (forall s : string,
     (exists e, parse s = Fail e) <-> ~ exists fs, input_g (list_ascii_of_string s) fs) /\
  (forall (s : string) fs,
     parse s = Ok (MkFormula fs None None) <-> input_g (list_ascii_of_string s) fs) /\
  (forall (s : string) e, parse s = Fail e ->
     (exists sym, e = UnknownSymbol sym \/ e = InvalidIsotope sym \/ e = Trailing sym) \/
     e = Unbalanced \/ e = BadCount) /\
  parse "Xx2" = Fail (UnknownSymbol ["X"%char; "x"%char]) /\
  parse "(CaCO3" = Fail Unbalanced.
Proof.
  split; [|split; [exact parse_input|split; [|split; reflexivity]]].
  - intros s. split.
    + intros [e He] [fs Hfs]. apply parse_input in Hfs. congruence.
    + intros Hn. destruct (parse s) as [F|e] eqn:E; [|eauto].
      exfalso. apply Hn. unfold parse in E.
      destruct (parse_chars (list_ascii_of_string s)) as [fs|e] eqn:E2; [|discriminate].
      exists fs. apply parse_chars_ok, E2.
  - intros s e H. unfold parse in H.
    destruct (parse_chars (list_ascii_of_string s)) as [fs|e'] eqn:E; [discriminate|].
    injection H as <-. pose proof (parse_chars_fail _ _ E) as Hne.
    destruct e'; eauto 6. contradiction.
Qed.

(** C5 (counterexample): [(3HO0.5)2] does not flatten to [{H: 6, O: 1}]. *)
Lemma fractional_count_counterexample :
  parse_flatten "(3HO0.5)2" <> Some {[Elem 1 := Q2Qc 6; Elem 8 := Q2Qc 1]}.
Proof. match goal with |- ~ ?P => apply (bool_decide_eq_false_1 P) end. vm_compute. reflexivity. Qed.

(** C5 (amended): nested groups with trailing counts parse and flatten
    correctly, [(CaCO3(H2O)6)1] flattens as [CaCO3+6H2O] does, and decimal
    counts are accepted; a leading count scales its whole run, so [3HO0.5]
    is [{H: 3, O: 1.5}] and [(3HO0.5)2] flattens to [{H: 6, O: 3}]. *)
Theorem nested_and_fractional_counts :
  parse_flatten "CaCO3+6H2O" =
    Some {[Elem 20 := Q2Qc 1; Elem 6 := Q2Qc 1; Elem 8 := Q2Qc 9; Elem 1 := Q2Qc 12]} /\
  parse_flatten "(CaCO3(H2O)6)1" = parse_flatten "CaCO3+6H2O" /\
  parse_flatten "3HO0.5" = Some {[Elem 1 := Q2Qc 3; Elem 8 := Q2Qc (3 # 2)]} /\
  parse_flatten "(3HO0.5)2" = Some {[Elem 1 := Q2Qc 6; Elem 8 := Q2Qc 3]}.
Proof.
  repeat split; by_computation.
Qed.

(** C6: [CaCO[18]3] keys its three oxygen atoms by the oxygen-18 isotope,
    which is a different key from bare oxygen (absent from the composition),
    and the total mass uses the oxygen-18 mass, which differs from the
    natural oxygen mass. *)
Theorem isotope_selection :
  exists (F : Formula) (m m18 mO : Q),
    parse "CaCO[18]3" = Ok F /\
    flatten F = {[Elem 20 := Q2Qc 1; Elem 6 := Q2Qc 1; Iso 8 18 := Q2Qc 3]} /\
    flatten F !! Elem 8 = None /\
    Iso 8 18 <> Elem 8 /\
    catalog_mass (Iso 8 18) = Some m18 /\
    catalog_mass (Elem 8) = Some mO /\
    ~ m18 == mO /\
    total_mass catalog_mass F = Some m /\
    (m == (40078 # 1000) + (120107 # 10000) + 3 * m18)%Q.
Proof.
  eexists _, _, _, _.
  split; [reflexivity|].
  split; [by_computation|].
  split; [vm_compute; reflexivity|].
  split; [discriminate|].
  split; [reflexivity|].
  split; [reflexivity|].
  split; [vm_compute; discriminate|].
  split; [vm_compute; reflexivity|].
  vm_compute. reflexivity.
Qed.

(** C7: [add(A, B)] has A's fragments followed by B's; its density and
    name are the left operand's when it has them (also when both operands
    define them, with no error) and otherwise the right operand's; the
    operands are values and are left as they are. *)
Theorem add_concatenates (A B : Formula) :
  structure (add A B) = structure A ++ structure B /\
  (forall d, fdensity A = Some d -> fdensity (add A B) = Some d) /\
  (fdensity A = None -> fdensity (add A B) = fdensity B) /\
  (forall n, fname A = Some n -> fname (add A B) = Some n) /\
  (fname A = None -> fname (add A B) = fname B).
Proof.
  unfold add; simpl.
  repeat split; intros; repeat match goal with H : _ = _ |- _ => rewrite H end; done.
Qed.

Lemma add_concatenates_witness :
  fdensity (add (MkFormula [] (Some 1%Q) (Some "a")) (MkFormula [] (Some 2%Q) (Some "b"))) = Some 1%Q.
Proof.
  apply (proj1 (proj2 (add_concatenates (MkFormula [] (Some 1%Q) (Some "a"))
                                        (MkFormula [] (Some 2%Q) (Some "b")))) 1%Q).
  reflexivity.
Defined.

(** C8: the total mass of the empty Formula is 0; it is undefined exactly
    when some atom of the flattened composition has no mass datum; when
    defined it is the sum of count times mass over the composition. *)
Theorem total_mass_all_or_nothing (mass_of : atom -> option Q) :
  total_mass mass_of empty_formula = Some 0%Q /\
  (forall F : Formula,
      total_mass mass_of F = None <->
      exists x c, flatten F !! x = Some c /\ mass_of x = None) /\
  (forall (F : Formula) (s : Q), total_mass mass_of F = Some s ->
      (s == fold_right Qplus 0
             (map (fun '(x, c) => this c * default 0 (mass_of x)) (map_to_list (flatten F))))%Q).
Proof.
  split; [reflexivity|]. split.
  - intros F. unfold total_mass. rewrite mass_sum_None.
    split; intros (x & c & Hin & Hm); exists x, c; split; try done.
    + by apply elem_of_map_to_list.
    + by apply elem_of_map_to_list.
  - intros F s Hs. unfold total_mass in Hs. rewrite (mass_sum_Some _ _ _ _ Hs). ring.
Qed.

Lemma total_mass_all_or_nothing_witness :
  total_mass (fun x => if decide (x = Elem 8) then None else catalog_mass x)
             (MkFormula [(Dec 2 0, TAtom (Elem 1)); (dec_one, TAtom (Elem 8))] None None) = None.
Proof.
  apply (proj2 (proj1 (proj2 (total_mass_all_or_nothing
           (fun x => if decide (x = Elem 8) then None else catalog_mass x)))
           (MkFormula [(Dec 2 0, TAtom (Elem 1)); (dec_one, TAtom (Elem 8))] None None))).
  exists (Elem 8), (Q2Qc 1). split; [vm_compute; reflexivity|reflexivity].
Defined.

(** C9: [neutron_sld] and [xray_sld] fail with [MissingDensityError] exactly
    when no density is passed and the input Formula declares none; a density
    passed explicitly is used even when the Formula declares another one,
    and the declared density is used when none is passed. *)
Theorem sld_density_resolution
    (neutron_eval : composition -> Q -> Q -> Q * Q * Q)
    (xray_eval : composition -> Q -> option Q -> option Q -> Q * Q)
    (x : sld_input) (density : option Q) :
  (forall wl : Q,
      neutron_sld neutron_eval x density wl = inl MissingDensityError <->
      density = None /\ exists F, as_formula x = inr F /\ fdensity F = None) /\
  (forall wl en : option Q,
      xray_sld xray_eval x density wl en = inl MissingDensityError <->
      density = None /\ exists F, as_formula x = inr F /\ fdensity F = None) /\
  (forall (F : Formula) (rho : Q), as_formula x = inr F ->
      (density = Some rho \/ (density = None /\ fdensity F = Some rho)) ->
      (forall wl, neutron_sld neutron_eval x density wl = inr (neutron_eval (flatten F) rho wl)) /\
      (forall wl en, xray_sld xray_eval x density wl en = inr (xray_eval (flatten F) rho wl en))).
Proof.
  unfold neutron_sld, xray_sld, effective_density.
  split; [|split].
  - intros wl. destruct (as_formula x) as [e|F] eqn:Hx.
    + split; [intros [= ->]; destruct x; simpl in Hx; [done|] |].
      * destruct (parse s); congruence.
      * intros [_ (F & [=] & _)].
    + destruct density as [d|]; [split; [done|intros [[=] _]]|].
      destruct (fdensity F) eqn:Hd; split.
      * done.
      * intros [_ (F' & [= <-] & HF)]. congruence.
      * intros _. split; [done|]. by exists F.
      * done.
  - intros wl en. destruct (as_formula x) as [e|F] eqn:Hx.
    + split; [intros [= ->]; destruct x; simpl in Hx; [done|] |].
      * destruct (parse s); congruence.
      * intros [_ (F & [=] & _)].
    + destruct density as [d|]; [split; [done|intros [[=] _]]|].
      destruct (fdensity F) eqn:Hd; split.
      * done.
      * intros [_ (F' & [= <-] & HF)]. congruence.
      * intros _. split; [done|]. by exists F.
      * done.
  - intros F rho Hx Hrho. rewrite Hx.
    destruct Hrho as [->|[-> ->]]; split; done.
Qed.

Lemma sld_density_resolution_witness :
  neutron_sld (fun _ rho _ => (rho, 0, 0)%Q) (InFormula (MkFormula [] (Some 2%Q) None))
              (Some 1%Q) 1%Q = inr (1, 0, 0)%Q.
Proof.
  apply (proj1 (proj2 (proj2 (sld_density_resolution
           (fun _ rho _ => (rho, 0, 0)%Q) (fun _ rho _ _ => (rho, 0)%Q)
           (InFormula (MkFormula [] (Some 2%Q) None)) (Some 1%Q)))
           (MkFormula [] (Some 2%Q) None) 1%Q eq_refl (or_introl eq_refl))).
Defined.

(** C10: [xray], [K_alpha] and [K_beta1] share one delayed-load
    registration: the import sets [K_alpha_units] and [K_beta1_units] to
    "angstrom" without running any delayed loader and leaves the three groups
    absent; the two unit attributes are found by every read, after any
    earlier reads, without running anything; after any sequence of reads
    that names none of the three groups, the first read of any one of them
    runs [_load_xray] once, which installs all three; and along any sequence
    of reads [_load_xray] runs at most once. *)
Theorem xray_shared_registration :
  ("K_alpha_units", "angstrom") ∈ Registry.class_attrs Registry.import_periodictable /\
  ("K_beta1_units", "angstrom") ∈ Registry.class_attrs Registry.import_periodictable /\
  Registry.log Registry.import_periodictable = [Registry.LMass; Registry.LDensity] /\
  (forall g, g ∈ ["xray"; "K_alpha"; "K_beta1"] ->
      g ∉ Registry.installed Registry.import_periodictable) /\
  (forall (attrs : list string) (u : string), u ∈ ["K_alpha_units"; "K_beta1_units"] ->
      Registry.access u (Registry.run_accesses attrs Registry.import_periodictable) =
      (Registry.run_accesses attrs Registry.import_periodictable, true)) /\
  (forall (attrs : list string) (g : string),
      (forall a, a ∈ attrs -> a ∉ ["xray"; "K_alpha"; "K_beta1"]) ->
      g ∈ ["xray"; "K_alpha"; "K_beta1"] ->
      snd (Registry.access g (Registry.run_accesses attrs Registry.import_periodictable)) = true /\
      Registry.log (fst (Registry.access g (Registry.run_accesses attrs Registry.import_periodictable))) =
        Registry.log (Registry.run_accesses attrs Registry.import_periodictable) ++ [Registry.LXray] /\
      forall g', g' ∈ ["xray"; "K_alpha"; "K_beta1"] ->
        g' ∈ Registry.installed
               (fst (Registry.access g (Registry.run_accesses attrs Registry.import_periodictable)))) /\
  (forall (attrs : list string) (i j : nat),
      Registry.log (Registry.run_accesses attrs Registry.import_periodictable) !! i = Some Registry.LXray ->
      Registry.log (Registry.run_accesses attrs Registry.import_periodictable) !! j = Some Registry.LXray ->
      i = j).
Proof.
  split; [vm_compute; set_solver|].
  split; [vm_compute; set_solver|].
  split; [reflexivity|].
  split; [|split; [|split]].
  - intros g Hg. apply list_elem_of_In in Hg. simpl in Hg. vm_compute.
    repeat destruct Hg as [Hg|Hg]; try contradiction; subst g; set_solver.
  - intros attrs u Hu.
    rewrite import_after, run_accesses_after, access_after.
    assert (Ho : Registry.owner u = None) by (apply owner_none; set_solver).
    rewrite next_loaders_read by congruence.
    rewrite bool_decide_eq_true_2; [reflexivity|].
    apply known_names_spec. right. left. exact Hu.
  - intros attrs g Hattrs Hg.
    rewrite import_after, run_accesses_after, access_after. simpl.
    set (ls := fold_left Registry.next_loaders attrs []).
    assert (Hx : Registry.LXray ∉ ls).
    { intros Hin. apply fold_next_loaders_elem in Hin as [Hin|(a & Ha & Hoa)];
        [by apply elem_of_nil in Hin|].
      apply owner_spec in Hoa as [Hia _]. apply (Hattrs a Ha). exact Hia. }
    assert (Hog : Registry.owner g = Some Registry.LXray) by (apply owner_spec; split; [exact Hg|set_solver]).
    assert (En : Registry.next_loaders ls g = ls ++ [Registry.LXray]).
    { unfold Registry.next_loaders. rewrite Hog, bool_decide_eq_false_2 by exact Hx. reflexivity. }
    rewrite En. split; [|split].
    + apply bool_decide_eq_true. apply known_names_spec. right. right. congruence.
    + simpl. rewrite <- ?app_assoc. reflexivity.
    + intros g' Hg'. apply installed_after. right. exists Registry.LXray.
      split; [set_solver|exact Hg'].
  - intros attrs i j Hi Hj. eapply NoDup_lookup; [apply run_accesses_once|eauto|eauto].
Qed.

Lemma xray_shared_registration_witness :
  Registry.log (fst (Registry.access "K_alpha"
                       (Registry.run_accesses ["neutron"; "mass"] Registry.import_periodictable))) =
  Registry.log (Registry.run_accesses ["neutron"; "mass"] Registry.import_periodictable) ++ [Registry.LXray].
Proof.
  apply (proj2 (proj1 (proj2 (proj2 (proj2 (proj2 (proj2 xray_shared_registration)))))
           ["neutron"; "mass"] "K_alpha" ltac:(set_solver) ltac:(set_solver))).
Defined.

(* ================================================================== *)
(** * Further properties of the code *)

Section RegistryExtras.
Import Registry.

(** X1: along any sequence of attribute reads after the import, the
    initialisation calls run are [mass.init], [density.init] and then the
    delayed loaders, each at most once, exactly those owning a name that was
    read (in the order of their first read); the installed groups are
    [mass], [density] and the groups of those loaders; the class attributes
    set at import are unchanged. *)
Theorem reads_run_loaders (attrs : list string) :
  Registry.log (Registry.run_accesses attrs Registry.import_periodictable) =
    [Registry.LMass; Registry.LDensity] ++ Registry.loaders_after attrs /\
  NoDup (Registry.loaders_after attrs) /\
  (forall l, l ∈ Registry.loaders_after attrs <-> exists a, a ∈ attrs /\ Registry.owner a = Some l) /\
  (forall g, g ∈ Registry.installed (Registry.run_accesses attrs Registry.import_periodictable) <->
     g ∈ ["density"; "mass"] \/
     exists a l, a ∈ attrs /\ Registry.owner a = Some l /\ g ∈ Registry.installs l) /\
  Registry.class_attrs (Registry.run_accesses attrs Registry.import_periodictable) =
    Registry.class_attrs Registry.import_periodictable.
Proof.
  rewrite import_after, run_accesses_after. fold (loaders_after attrs).
  split; [reflexivity|]. split; [apply fold_next_loaders_nodup, NoDup_nil_2|].
  assert (Hel : forall l, l ∈ loaders_after attrs <-> exists a, a ∈ attrs /\ owner a = Some l).
  { intros l. unfold loaders_after. rewrite fold_next_loaders_elem.
    split; [intros [H|H]; [by apply elem_of_nil in H|exact H]|auto]. }
  split; [exact Hel|]. split; [|reflexivity].
  intros g. rewrite installed_after. split.
  - intros [H|(l & Hl & Hg)]; [auto|]. apply Hel in Hl as (a & Ha & Ho). right. eauto.
  - intros [H|(a & l & Ha & Ho & Hg)]; [auto|]. right. exists l. split; [apply Hel; eauto|exact Hg].
Qed.

(** X2: after any sequence of reads, reading a name that no delayed-load
    registration names (a class attribute such as [K_alpha_units], a group
    loaded at import, or a name nothing defines) leaves the state as it is,
    and reading a name that was already read runs nothing. *)
Theorem read_after_reads (attrs : list string) (a : string) :
  (Registry.owner a = None ->
     fst (Registry.access a (Registry.run_accesses attrs Registry.import_periodictable)) =
     Registry.run_accesses attrs Registry.import_periodictable) /\
  (a ∈ attrs ->
     fst (Registry.access a (Registry.run_accesses attrs Registry.import_periodictable)) =
     Registry.run_accesses attrs Registry.import_periodictable).
Proof.
  rewrite import_after, run_accesses_after, access_after. simpl. split.
  - intros Ho. rewrite next_loaders_read; [reflexivity|]. intros l Hl. congruence.
  - intros Ha. rewrite next_loaders_read; [reflexivity|]. intros l Hl.
    apply fold_next_loaders_elem. right. eauto.
Qed.

Lemma read_after_reads_witness :
  fst (Registry.access "K_alpha" (Registry.run_accesses ["neutron"; "K_alpha"] Registry.import_periodictable)) =
  Registry.run_accesses ["neutron"; "K_alpha"] Registry.import_periodictable.
Proof.
  apply (proj2 (read_after_reads ["neutron"; "K_alpha"] "K_alpha")).
  set_solver.
Defined.
End RegistryExtras.

(** X3: groups can be separated by [+] or by spaces: joining two non-empty
    formula strings that parse to [A] and [B] with any non-empty run of
    separators gives a string that parses to [A + B]. *)
Theorem parse_concat (s t p : string) (A B : Formula) :
  parse s = Ok A -> parse t = Ok B -> s <> ""%string -> t <> ""%string -> p <> ""%string ->
  Forall (fun c => is_sep c = true) (list_ascii_of_string p) ->
  parse (s ++ p ++ t) = Ok (add A B).
Proof. exact (parse_concat_ok s t p A B). Qed.

Lemma parse_concat_witness :
  parse ("CaCO3" ++ " + " ++ "H2O") =
  Ok (add (MkFormula [(dec_one, TAtom (Elem 20)); (dec_one, TAtom (Elem 6)); (Dec 3 0, TAtom (Elem 8))] None None)
          (MkFormula [(Dec 2 0, TAtom (Elem 1)); (dec_one, TAtom (Elem 8))] None None)).
Proof.
  apply parse_concat; try reflexivity; try discriminate.
  repeat constructor.
Defined.

(** X4: parentheses make a group: when [s] parses to [A], the string
    [(s)] followed by a count literal for [k] parses to [k * A], and [(s)]
    with no count parses to [1 * A]. *)
Theorem parse_group (s c : string) (k : decimal) (A : Formula) :
  parse s = Ok A -> s <> ""%string -> opt_count (list_ascii_of_string c) k ->
  parse ("(" ++ s ++ ")" ++ c) = Ok (scale k A).
Proof.
  intros HA Hs Hc. destruct (parse_ok_inv _ _ HA Hs) as [EA FA].
  rewrite EA. unfold scale; simpl. apply parse_of_formula_g.
  rewrite !list_ascii_of_string_append. simpl.
  apply formula_g_single_run. apply RunPlain. apply TermsOne. apply TermGroup; assumption.
Qed.

Lemma parse_group_witness :
  parse ("(" ++ "H2O" ++ ")" ++ "6") =
  Ok (scale (Dec 6 0) (MkFormula [(Dec 2 0, TAtom (Elem 1)); (dec_one, TAtom (Elem 8))] None None)).
Proof.
  apply parse_group; [reflexivity|discriminate|].
  apply SomeCount. apply (CountInt ["6"%char]); [discriminate|repeat constructor].
Defined.

(** X5: a leading count scales the whole run it starts: when [s] parses to
    [A], starts with an element symbol or a parenthesis and contains no
    separator, a count literal for [k] followed by [s] parses to [k * A]; so
    [formula("CaCO3") + 6*formula("H2O")] and [formula("CaCO3+6H2O")] are the
    same Formula. *)
Theorem parse_leading_count (c s : string) (k : decimal) (A : Formula) :
  parse s = Ok A -> count_lit (list_ascii_of_string c) k ->
  hd_is (fun ch => is_upper ch = true \/ ch = "("%char) (list_ascii_of_string s) ->
  Forall (fun ch => is_sep ch = false) (list_ascii_of_string s) ->
  parse (c ++ s) = Ok (scale k A).
Proof.
  intros HA Hc Hh Hns.
  assert (Hs : s <> ""%string) by (intros ->; exact Hh).
  destruct (parse_ok_inv _ _ HA Hs) as [EA FA].
  rewrite EA. unfold scale; simpl. apply parse_of_formula_g.
  rewrite list_ascii_of_string_append.
  apply formula_g_single_run. apply RunScaled; [exact Hc|].
  remember (list_ascii_of_string s) as l eqn:El. clear El HA EA Hs.
  destruct FA as [s1 s2 fs gs Hr Hm].
  apply Forall_app in Hns as [Hns1 Hns2].
  destruct (more_g_no_sep _ _ Hm Hns2) as [-> ->]. rewrite !app_nil_r in Hh |- *.
  destruct Hr as [s0 ts Hts|c' s0 d ts Hc' _]; [rewrite app_nil_r; exact Hts|].
  exfalso. pose proof (count_lit_first _ _ Hc') as Hd.
  destruct c' as [|x c'']; [contradiction|]. simpl in Hd, Hh.
  destruct Hh as [Hu| ->]; [destruct (char_digit x Hd); congruence|].
  vm_compute in Hd. discriminate.
Qed.

Lemma parse_leading_count_witness :
  parse ("6" ++ "H2O") =
  Ok (scale (Dec 6 0) (MkFormula [(Dec 2 0, TAtom (Elem 1)); (dec_one, TAtom (Elem 8))] None None)).
Proof.
  apply parse_leading_count; [reflexivity| | simpl; auto | repeat constructor].
  apply (CountInt ["6"%char]); [discriminate|repeat constructor].
Defined.

(** X7: the mass of [A + B] is undefined exactly when the mass of [A] or of
    [B] is, and otherwise it is the sum of their masses. *)
Theorem total_mass_add (mass_of : atom -> option Q) (A B : Formula) :
  (total_mass mass_of (add A B) = None <->
     total_mass mass_of A = None \/ total_mass mass_of B = None) /\
  (forall a b, total_mass mass_of A = Some a -> total_mass mass_of B = Some b ->
     exists s, total_mass mass_of (add A B) = Some s /\ (s == a + b)%Q).
Proof.
  assert (Hflat : flatten (add A B) = merge (flatten A) (flatten B)).
  { unfold flatten, add; simpl. apply flatten_frags_app. }
  assert (Hiff : total_mass mass_of (add A B) = None <->
                 total_mass mass_of A = None \/ total_mass mass_of B = None).
  { rewrite !total_mass_None_iff, Hflat. unfold merge. split.
    - intros (x & c & Hx & Hm). rewrite lookup_union_with in Hx.
      destruct (flatten A !! x) as [a|] eqn:Ha; [left; eauto|].
      destruct (flatten B !! x) as [b|] eqn:Hb; [right; eauto|]. discriminate.
    - intros [(x & c & Hx & Hm)|(x & c & Hx & Hm)]; exists x; rewrite lookup_union_with, Hx;
        [destruct (flatten B !! x)|destruct (flatten A !! x)]; eauto. }
  split; [exact Hiff|].
  intros a b Ha Hb. destruct (total_mass mass_of (add A B)) as [s|] eqn:Hs.
  - exists s. split; [reflexivity|].
    rewrite (total_mass_Some_eq _ _ _ Hs), (total_mass_Some_eq _ _ _ Ha),
      (total_mass_Some_eq _ _ _ Hb), Hflat.
    apply weighted_merge.
  - exfalso. destruct (proj1 Hiff eq_refl) as [H|H]; congruence.
Qed.

Lemma total_mass_add_witness :
  exists s, total_mass catalog_mass
              (add (MkFormula [(Dec 2 0, TAtom (Elem 1)); (dec_one, TAtom (Elem 8))] None None)
                   (MkFormula [(dec_one, TAtom (Elem 20)); (dec_one, TAtom (Elem 6));
                               (Dec 3 0, TAtom (Elem 8))] None None)) = Some s /\
            (s == 18.015280000 + 100.08690000000)%Q.
Proof.
  apply (proj2 (total_mass_add catalog_mass
           (MkFormula [(Dec 2 0, TAtom (Elem 1)); (dec_one, TAtom (Elem 8))] None None)
           (MkFormula [(dec_one, TAtom (Elem 20)); (dec_one, TAtom (Elem 6));
                       (Dec 3 0, TAtom (Elem 8))] None None))); vm_compute; reflexivity.
Defined.

(** X8: the mass of [k * A] is undefined exactly when the mass of [A] is,
    and otherwise it is [k] times the mass of [A]. *)
Theorem total_mass_scale (mass_of : atom -> option Q) (k : decimal) (A : Formula) :
  (total_mass mass_of (scale k A) = None <-> total_mass mass_of A = None) /\
  (forall a, total_mass mass_of A = Some a ->
     exists s, total_mass mass_of (scale k A) = Some s /\ (s == dec_Q k * a)%Q).
Proof.
  assert (Hflat : flatten (scale k A) = scale_comp (dec_Qc k) (flatten A)).
  { unfold flatten, scale; simpl.
    rewrite flatten_frags_cons, flatten_frags_nil, merge_empty_r. reflexivity. }
  assert (Hiff : total_mass mass_of (scale k A) = None <-> total_mass mass_of A = None).
  { rewrite !total_mass_None_iff, Hflat. unfold scale_comp. split.
    - intros (x & c & Hx & Hm). rewrite lookup_fmap in Hx.
      destruct (flatten A !! x) eqn:Ha; [eauto|discriminate].
    - intros (x & c & Hx & Hm). exists x. rewrite lookup_fmap, Hx. eauto. }
  split; [exact Hiff|].
  intros a Ha. destruct (total_mass mass_of (scale k A)) as [s|] eqn:Hs.
  - exists s. split; [reflexivity|].
    rewrite (total_mass_Some_eq _ _ _ Hs), (total_mass_Some_eq _ _ _ Ha), Hflat, weighted_scale.
    unfold dec_Qc. simpl. rewrite Qred_correct. reflexivity.
  - exfalso. pose proof (proj1 Hiff eq_refl). congruence.
Qed.

Lemma total_mass_scale_witness :
  exists s, total_mass catalog_mass
              (scale (Dec 6 0) (MkFormula [(Dec 2 0, TAtom (Elem 1)); (dec_one, TAtom (Elem 8))] None None))
            = Some s /\ (s == dec_Q (Dec 6 0) * 18.015280000)%Q.
Proof.
  apply (proj2 (total_mass_scale catalog_mass (Dec 6 0)
           (MkFormula [(Dec 2 0, TAtom (Elem 1)); (dec_one, TAtom (Elem 8))] None None)));
    vm_compute; reflexivity.
Defined.

(** X10: the scattering length densities of a sum written as a string are
    those of the sum of the parsed parts, as in the module documentation
    where [neutron_sld('SiO2+3H2O', ...)] describes
    [formula('SiO2') + formula('3H2O')]. *)
Theorem sld_string_sum
    (neutron_eval : composition -> Q -> Q -> Q * Q * Q)
    (xray_eval : composition -> Q -> option Q -> option Q -> Q * Q)
    (s t p : string) (A B : Formula) (density : option Q) (wl : Q) (xwl en : option Q) :
  parse s = Ok A -> parse t = Ok B -> s <> ""%string -> t <> ""%string -> p <> ""%string ->
  Forall (fun c => is_sep c = true) (list_ascii_of_string p) ->
  neutron_sld neutron_eval (InString (s ++ p ++ t)) density wl =
    neutron_sld neutron_eval (InFormula (add A B)) density wl /\
  xray_sld xray_eval (InString (s ++ p ++ t)) density xwl en =
    xray_sld xray_eval (InFormula (add A B)) density xwl en.
Proof.
  intros HA HB Hs Ht Hp Hps.
  pose proof (parse_concat_ok s t p A B HA HB Hs Ht Hp Hps) as H.
  unfold neutron_sld, xray_sld, as_formula. rewrite H. split; reflexivity.
Qed.

Lemma sld_string_sum_witness :
  neutron_sld (fun _ rho _ => (rho, 0, 0)%Q) (InString ("SiO2" ++ "+" ++ "3H2O")) (Some (3 # 2)%Q) (475 # 100)%Q =
  neutron_sld (fun _ rho _ => (rho, 0, 0)%Q)
    (InFormula (add (MkFormula [(dec_one, TAtom (Elem 14)); (Dec 2 0, TAtom (Elem 8))] None None)
                    (MkFormula [(Dec 3 0, TSub [(Dec 2 0, TAtom (Elem 1)); (dec_one, TAtom (Elem 8))])] None None)))
    (Some (3 # 2)%Q) (475 # 100)%Q.
Proof.
  apply (proj1 (sld_string_sum (fun _ rho _ => (rho, 0, 0)%Q) (fun _ rho _ _ => (rho, 0)%Q)
           "SiO2" "3H2O" "+"
           (MkFormula [(dec_one, TAtom (Elem 14)); (Dec 2 0, TAtom (Elem 8))] None None)
           (MkFormula [(Dec 3 0, TSub [(Dec 2 0, TAtom (Elem 1)); (dec_one, TAtom (Elem 8))])] None None)
           (Some (3 # 2)%Q) (475 # 100)%Q None None
           eq_refl eq_refl ltac:(discriminate) ltac:(discriminate) ltac:(discriminate)
           ltac:(repeat constructor))).
Defined.
